(** * Sudoku-Solver-AR: the renderer, the line clipper and the debug overlays

    A shallow embedding of [src/Painter.cpp] and of the drawing helpers of
    [src/sudoku_solver_ar.cpp] ([DrawLines], [DrawLineClusters],
    [DrawHoughTransform]), with the properties of the specification stated
    and settled against them.

    Numeric conventions.
    - [unsigned int] is an [N] reduced modulo [2^32] after every operation
      that can wrap; [unsigned short] and [unsigned char] are [N] below
      [2^16] and [Byte.byte].
    - The pixel arithmetic of [DrawHoughTransform] ends in a conversion to
      [unsigned char], where one unit in the last place decides the byte:
      it is modelled in IEEE-754 binary32, round to nearest even, on exact
      rationals (module [Binary32]).
    - The geometry ([Painter], [DrawLines]) is idealised: [float] is [R],
      [cosf], [sinf] are [cos], [sin], [M_PI] is [PI]. The divisions by
      the window size are partial ([F.div]): a zero divisor gives no
      finite number. The divisions by the slope in [DrawLines] are marked
      where their result would be read with a zero slope ([NotFinite]). *)

From Stdlib Require Import ZArith NArith QArith Qround Qpower Reals Lra Lia Psatz List.
From Stdlib.Strings Require Import Byte.
From stdpp Require Import base option list.

Module Binary32.
Local Open Scope Q_scope.

(** Round a rational to the nearest integer, ties to the even one. *)
Definition rne (s : Q) : Z :=
  let n := Qnum s in
  let d := Zpos (Qden s) in
  let q := (n / d)%Z in
  let r := (n mod d)%Z in
  if (2 * r <? d)%Z then q
  else if (d <? 2 * r)%Z then (q + 1)%Z
  else if Z.even q then q else (q + 1)%Z.

(** [floor (log2 x)] for [0 < x]. *)
Definition ilog2 (x : Q) : Z :=
  let e := (Z.log2 (Qnum x) - Z.log2 (Zpos (Qden x)))%Z in
  if Qle_bool (2 ^ e) x then e else (e - 1)%Z.

(** The binary32 number nearest to a positive [x]: a 24-bit significand
    scaled by a power of two. The exponent is not bounded; the values
    rounded in this development lie between [2^-9] and [2^9]. *)
Definition round_pos (x : Q) : Q :=
  let e := ilog2 x in
  inject_Z (rne (x * 2 ^ (23 - e))) * 2 ^ (e - 23).

Definition round (x : Q) : Q :=
  match Qnum x with
  | Z0 => 0
  | Zpos _ => round_pos x
  | Zneg _ => - round_pos (- x)
  end.

(** [a / b] in [float]; [None] when [b] is zero (an infinity or a NaN). *)
Definition div (a b : Q) : option Q :=
  if Qeq_bool b 0 then None else Some (round (a / b)).

Definition mul (a b : Q) : Q := round (a * b).

(** Conversion of a [float] to an integer type drops the fraction. *)
Definition trunc (x : Q) : Z :=
  if Qle_bool 0 x then Qfloor x else Qceiling x.

(** [float] to [unsigned char]: undefined unless the truncated value is
    a byte. *)
Definition to_uchar (x : Q) : option byte :=
  let z := trunc x in
  if ((0 <=? z) && (z <? 256))%Z then Byte.of_N (Z.to_N z) else None.

(** [static_cast<float>] of an [unsigned short]: exact, 16 bits fit. *)
Definition of_N (n : N) : Q := inject_Z (Z.of_N n).
End Binary32.

(** [unsigned int] arithmetic wraps at [2^32]. *)
Definition u32 (n : N) : N := (n mod 2 ^ 32)%N.

Module Image.
(** Modelled from the spec: [Image.h] is not among the sources. An image
    has an unsigned width and height and a buffer of 3 bytes per pixel
    (R, G, B), row-major, without padding; an empty buffer means no data. *)
Record t := make { width : N; height : N; data : list byte }.
End Image.

Module Geometry.
(** Modelled from the spec: [Geometry.h] is not among the sources. A
    point has [float] pixel coordinates; a line has [float] polar
    parameters in Hesse normal form. *)
Record Point := mkPoint { x : R; y : R }.
Record Line := mkLine { theta : R; rho : R }.
End Geometry.

(** ** [float] values handed to OpenGL *)

(** A [GLfloat] is a real number or, after a division by zero, no finite
    number at all ([None]: an infinity or a NaN). *)
Definition GLfloat : Type := option R.

Module F.
Local Open Scope R_scope.
Definition lit (r : R) : GLfloat := Some r.
Definition lift2 (f : R -> R -> R) (a b : GLfloat) : GLfloat :=
  match a, b with
  | Some a', Some b' => Some (f a' b')
  | _, _ => None
  end.
Definition add := lift2 Rplus.
Definition sub := lift2 Rminus.
Definition mul := lift2 Rmult.
Definition div (a b : GLfloat) : GLfloat :=
  match a, b with
  | Some a', Some b' => if Req_dec_T b' 0 then None else Some (a' / b')
  | _, _ => None
  end.
End F.

(** ** Painter.cpp *)

Module Painter.
Local Open Scope R_scope.
Import Geometry.

Inductive Mode := GL_TRIANGLES | GL_LINES.
Inductive Target := Screen | Offscreen (w h : N).

(** One [glDrawElements] call with what it reads: the vertex buffer as
    the flat array of the source, the index array, the bound texture and
    the render target. *)
Record Draw := mkDraw {
  mode : Mode;
  count : nat;
  vertices : list GLfloat;
  indices : list nat;
  texture : option Image.t;
  target : Target
}.

Record t := mk { windowWidth : R; windowHeight : R }.

(** The constructor stores the window size as [float]s. *)
Definition Painter (w h : N) : t :=
  {| windowWidth := IZR (Z.of_N w); windowHeight := IZR (Z.of_N h) |}.

Definition is_empty {A} (l : list A) : bool :=
  match l with nil => true | _ => false end.

Definition DrawImage (p : t) (x y width height : R) (image : Image.t) : list Draw :=
  if is_empty (Image.data image) then nil
  else
    let W := F.lit (windowWidth p) in
    let H := F.lit (windowHeight p) in
    let left := F.div (F.lit x) W in
    let right := F.add left (F.div (F.lit width) W) in
    let top := F.div (F.lit y) H in
    let bottom := F.add top (F.div (F.lit height) H) in
    let left := F.sub (F.mul left (F.lit 2)) (F.lit 1) in
    let right := F.sub (F.mul right (F.lit 2)) (F.lit 1) in
    let top := F.sub (F.lit 1) (F.mul top (F.lit 2)) in
    let bottom := F.sub (F.lit 1) (F.mul bottom (F.lit 2)) in
    let o := F.lit 0 in
    let i := F.lit 1 in
    mkDraw GL_TRIANGLES 6
      (left :: top :: o :: o :: o ::
       right :: top :: o :: i :: o ::
       right :: bottom :: o :: i :: i ::
       left :: bottom :: o :: o :: i :: nil)
      (0 :: 1 :: 2 :: 2 :: 3 :: 0 :: nil)%nat
      (Some image) Screen :: nil.

Definition DrawLine (p : t) (x1 y1 x2 y2 : R) (red green blue : N) : list Draw :=
  let W := F.lit (windowWidth p) in
  let H := F.lit (windowHeight p) in
  let redf := F.div (F.lit (IZR (Z.of_N red))) (F.lit 255) in
  let greenf := F.div (F.lit (IZR (Z.of_N green))) (F.lit 255) in
  let bluef := F.div (F.lit (IZR (Z.of_N blue))) (F.lit 255) in
  let o := F.lit 0 in
  mkDraw GL_LINES 2
    (F.sub (F.mul (F.div (F.lit x1) W) (F.lit 2)) (F.lit 1) ::
     F.sub (F.lit 1) (F.mul (F.div (F.lit y1) H) (F.lit 2)) :: o ::
     redf :: greenf :: bluef ::
     F.sub (F.mul (F.div (F.lit x2) W) (F.lit 2)) (F.lit 1) ::
     F.sub (F.lit 1) (F.mul (F.div (F.lit y2) H) (F.lit 2)) :: o ::
     redf :: greenf :: bluef :: nil)
    (0 :: 1 :: nil)%nat
    None Screen :: nil.

(** The 18 triangles of [ExtractImage], three indices each. *)
Definition extract_indices : list nat :=
  (0 :: 1 :: 5 ::
   0 :: 5 :: 4 ::
   1 :: 2 :: 6 ::
   1 :: 6 :: 5 ::
   2 :: 3 :: 7 ::
   2 :: 7 :: 6 ::
   4 :: 5 :: 9 ::
   4 :: 9 :: 8 ::
   5 :: 6 :: 10 ::
   5 :: 10 :: 9 ::
   6 :: 7 :: 11 ::
   6 :: 11 :: 10 ::
   8 :: 9 :: 13 ::
   8 :: 13 :: 12 ::
   9 :: 10 :: 14 ::
   9 :: 14 :: 13 ::
   10 :: 11 :: 15 ::
   10 :: 15 :: 14 :: nil)%nat.

(** The five [push_back]s of one pass of the inner loop. The index is in
    range on the path that reaches it (16 points); [nth]'s default is
    never read there. *)
Definition extract_vertex (srcPoints : list Point) (srcPointScaleX srcPointScaleY : R)
    (y x : nat) : list GLfloat :=
  let srcPointsIndex := (y * 4 + x)%nat in
  let pt := nth srcPointsIndex srcPoints (mkPoint 0 0) in
  F.lit (-1 + INR x * 2 / 3) ::
  F.lit (-1 + INR y * 2 / 3) ::
  F.lit 0 ::
  F.lit (Geometry.x pt * srcPointScaleX) ::
  F.lit (Geometry.y pt * srcPointScaleY) :: nil.

Definition extract_vertices (srcPoints : list Point) (srcPointScaleX srcPointScaleY : R)
    : list GLfloat :=
  flat_map (fun y =>
    flat_map (fun x => extract_vertex srcPoints srcPointScaleX srcPointScaleY y x)
             (seq 0 4))
    (seq 0 4).

(** [std::vector::resize]: keep the first [n] bytes, pad with zeros. *)
Definition resize (n : nat) (d : list byte) : list byte :=
  firstn n d ++ repeat x00 (n - length d).

Section ExtractImage.
(** The rasteriser is outside the program: [glReadPixels draw buffer]
    is the buffer after the pixels rendered by [draw] were read back
    into it. *)
Variable glReadPixels : Draw -> list byte -> list byte.

(** Returns the destination image after the call and the draw calls
    issued. *)
Definition ExtractImage (srcImage : Image.t) (srcPoints : list Point)
    (srcPointScaleX srcPointScaleY : R) (dstImage : Image.t)
    (dstImageWidth dstImageHeight : N) : Image.t * list Draw :=
  if is_empty (Image.data srcImage) then (dstImage, nil)
  else if negb (length srcPoints =? 16)%nat then (dstImage, nil)
  else
    let draw :=
      mkDraw GL_TRIANGLES (18 * 3)
        (extract_vertices srcPoints srcPointScaleX srcPointScaleY)
        extract_indices (Some srcImage)
        (Offscreen dstImageWidth dstImageHeight) in
    let size := u32 (u32 (dstImageWidth * dstImageHeight) * 3) in
    (Image.make dstImageWidth dstImageHeight
       (glReadPixels draw (resize (N.to_nat size) (Image.data dstImage))),
     draw :: nil).
End ExtractImage.
End Painter.

(** ** sudoku_solver_ar.cpp: [DrawLines] *)

#[global] Instance Rlt_decision : RelDecision Rlt := Rlt_dec.
#[global] Instance Rle_decision : RelDecision Rle := Rle_dec.
#[global] Instance Rge_decision : RelDecision Rge := Rge_dec.
#[global] Instance Rgt_decision : RelDecision Rgt := Rgt_dec.
#[global] Instance Req_decision : EqDecision R := Req_dec_T.

Module Clipper.
Local Open Scope R_scope.
Import Geometry.

(** Truncation toward zero, and [fmodf]: the remainder has the sign of
    the dividend. *)
Definition Rtrunc (r : R) : Z :=
  if decide (0 <= r) then Int_part r else (- Int_part (- r))%Z.

Definition fmodf (a b : R) : R := a - IZR (Rtrunc (a / b)) * b.

(** Lines 53-61: rho is made non-negative. Returns [(theta, rho)]. *)
Definition canonical (line : Line) : R * R :=
  let theta := theta line in
  let rho := rho line in
  if decide (rho < 0) then (fmodf (theta + PI) (2 * PI), rho * -1)
  else (theta, rho).

(** What one pass of the loop decides, before the placement offset is
    added: the early vertical [DrawLine] at [xPoint], the final
    [DrawLine] between two clipped points, or [continue]. [NotFinite]
    stands for a branch that reads [topHorizontal] or [bottomHorizontal]
    when the slope [m] is zero: the source has divided by zero and goes
    on with infinities, which binary32 never reaches ([cosf] has no zero
    among the [float]s) and the real numbers cannot follow. *)
Inductive Clipped :=
| Vertical (xPoint : R)
| Segment (x1 y1 x2 y2 : R)
| Dropped
| NotFinite.

Definition clip (width height : R) (line : Line) : Clipped :=
  let '(theta, rho) := canonical line in
  let cosTheta := cos theta in
  let sinTheta := sin theta in
  let xPoint := cosTheta * rho in
  let yPoint := sinTheta * rho in
  if decide (sinTheta = 0) then Vertical xPoint
  else
    let m := - (cos theta / sin theta) in
    let b := - xPoint * m in
    let leftVertical := yPoint + b in
    let topHorizontal := (- yPoint - b) / m in
    let rightVertical := yPoint + b + width * m in
    let bottomHorizontal := (height - yPoint - b) / m in
    if decide (theta > 0 /\ theta <= PI / 2) then
      if decide (m = 0) then NotFinite
      else
        Segment
          (if decide (leftVertical <= height) then 0 else bottomHorizontal)
          (if decide (leftVertical <= height) then leftVertical else height)
          (if decide (topHorizontal <= width) then topHorizontal else width)
          (if decide (topHorizontal <= width) then 0 else rightVertical)
    else if decide (theta >= PI / 2 /\ theta <= PI) then
      if decide (leftVertical > height) then Dropped
      else if decide (m = 0) then NotFinite
      else
        Segment
          0
          leftVertical
          (if decide (bottomHorizontal <= width) then bottomHorizontal else width)
          (if decide (rightVertical <= height) then rightVertical else height)
    else if decide (theta >= 3 * PI / 2) then
      if decide (m = 0) then NotFinite
      else if decide (topHorizontal > width) then Dropped
      else
        Segment
          topHorizontal
          0
          (if decide (bottomHorizontal <= width) then bottomHorizontal else width)
          (if decide (bottomHorizontal <= width) then height else rightVertical)
    else Dropped.

(** The two endpoints a [Clipped] stands for, before the offset. *)
Definition endpoints (height : R) (c : Clipped) : option ((R * R) * (R * R)) :=
  match c with
  | Vertical xPoint => Some ((xPoint, 0), (xPoint, height))
  | Segment x1 y1 x2 y2 => Some ((x1, y1), (x2, y2))
  | Dropped | NotFinite => None
  end.

(** A call of [Painter::DrawLine] with its arguments in pixels. *)
Record LineCall := mkLineCall {
  lx1 : R; ly1 : R; lx2 : R; ly2 : R;
  red : N; green : N; blue : N
}.

(** The [DrawLine] call of one pass, with the offset [(x, y)] added the
    way each call site adds it; [None] where the pass is not followed
    ([NotFinite]). *)
Definition draw_one (x y width height : R) (line : Line) (red green blue : N)
    : option (list LineCall) :=
  match clip width height line with
  | Vertical xPoint =>
      Some (mkLineCall (x + xPoint) y (x + xPoint) (y + height) red green blue :: nil)
  | Segment x1 y1 x2 y2 =>
      Some (mkLineCall (x + x1) (y + y1) (x + x2) (y + y2) red green blue :: nil)
  | Dropped => Some nil
  | NotFinite => None
  end.

(** [DrawLines]: the calls of [Painter::DrawLine] made, in order. *)
Fixpoint DrawLines (x y width height : R) (lines : list Line)
    (red green blue : N) : option (list LineCall) :=
  match lines with
  | nil => Some nil
  | line :: rest =>
      call ← draw_one x y width height line red green blue;
      calls ← DrawLines x y width height rest red green blue;
      Some (call ++ calls)
  end.

(** The calls carried out by a painter. *)
Definition paint (p : Painter.t) (calls : list LineCall) : list Painter.Draw :=
  flat_map (fun c =>
    Painter.DrawLine p (lx1 c) (ly1 c) (lx2 c) (ly2 c) (red c) (green c) (blue c))
    calls.
End Clipper.

(** ** sudoku_solver_ar.cpp: [DrawLineClusters] *)

Module Overlay.
Local Open Scope R_scope.
Import Geometry Clipper.

Definition clusterColors : list (N * N * N) :=
  ((255, 0, 0) ::
   (128, 0, 255) ::
   (0, 255, 0) ::
   (255, 255, 0) ::
   (0, 255, 255) ::
   (128, 255, 255) ::
   (255, 0, 255) :: nil)%N.

(** The [for] loop of [DrawLineClusters] from index [x] on, over the
    clusters not yet drawn. The loop variable is named [x] in the source
    too, and hides the parameter [x] of the function in the loop body:
    the first argument of [DrawLines] is the index, converted to
    [float]. *)
Fixpoint cluster_loop (y width height : R) (x : nat) (rest : list (list Line))
    : option (list LineCall) :=
  match rest with
  | nil => Some nil
  | cluster :: rest' =>
      let clusterColor := nth (x mod length clusterColors) clusterColors (0, 0, 0)%N in
      let '(red, green, blue) := clusterColor in
      call ← DrawLines (INR x) y width height cluster red green blue;
      calls ← cluster_loop y width height (S x) rest';
      Some (call ++ calls)
  end.

Definition DrawLineClusters (x y width height : R) (lineClusters : list (list Line))
    : option (list LineCall) :=
  cluster_loop y width height 0 lineClusters.
End Overlay.

(** ** sudoku_solver_ar.cpp: [DrawHoughTransform] *)

Module Hough.
Import Image.

(** [*reinterpret_cast<const unsigned short*>(&data[index])]: the two
    bytes at [index], low byte first (the targets, Linux and Windows on
    x86 and ARM, are little-endian). Reading past the buffer is
    undefined: [None]. *)
Definition read_u16 (d : list byte) (index : N) : option N :=
  lo ← d !! N.to_nat index;
  hi ← d !! S (N.to_nat index);
  Some (Byte.to_N lo + 256 * Byte.to_N hi)%N.

(** [data[index] = value]; writing past the buffer is undefined. *)
Definition store (d : list byte) (index : N) (value : byte) : option (list byte) :=
  if decide (N.to_nat index < length d)%nat
  then Some (<[N.to_nat index := value]> d) else None.

Definition cell_count (frame : Image.t) : N := u32 (width frame * height frame).

(** First loop: [n] passes are left, [x] is the loop variable. *)
Fixpoint find_maximum (frame : Image.t) (n : nat) (x maximumValue : N) : option N :=
  match n with
  | O => Some maximumValue
  | S n' =>
      let index := u32 (x * 3) in
      value ← read_u16 (data frame) index;
      find_maximum frame n' (x + 1)%N (N.max maximumValue value)
  end.

Definition maximum (frame : Image.t) : option N :=
  find_maximum frame (N.to_nat (cell_count frame)) 0 0.

(** [255.0f / static_cast<float>(maximumValue)]; [None] is the infinity
    of a zero maximum. *)
Definition multiplier (maximumValue : N) : option Q :=
  Binary32.div 255 (Binary32.of_N maximumValue).

(** The byte assigned to [value] in the second loop. With the infinite
    multiplier the product is an infinity or a NaN and the conversion to
    [unsigned char] is undefined. *)
Definition rescale_value (mult : option Q) (count : N) : option byte :=
  m ← mult;
  Binary32.to_uchar (Binary32.mul (Binary32.of_N count) m).

(** Second loop: counts are read from [frame], bytes are written to the
    copy [modified]. *)
Fixpoint rescale_loop (frame : Image.t) (mult : option Q) (n : nat) (x : N)
    (modified : list byte) : option (list byte) :=
  match n with
  | O => Some modified
  | S n' =>
      let index := u32 (x * 3) in
      count ← read_u16 (data frame) index;
      value ← rescale_value mult count;
      d0 ← store modified (u32 (index + 0)) value;
      d1 ← store d0 (u32 (index + 1)) value;
      d2 ← store d1 (u32 (index + 2)) value;
      rescale_loop frame mult n' (x + 1)%N d2
  end.

(** Lines 168-189: the greyscale copy [modifiedHTF]. *)
Definition rescale (houghTransformFrame : Image.t) : option Image.t :=
  maximumValue ← maximum houghTransformFrame;
  d ← rescale_loop houghTransformFrame (multiplier maximumValue)
        (N.to_nat (cell_count houghTransformFrame)) 0 (data houghTransformFrame);
  Some (Image.make (width houghTransformFrame) (height houghTransformFrame) d).

Definition DrawHoughTransform (painter : Painter.t) (windowWidth windowHeight : R)
    (houghTransformFrame : Image.t) (scale : R) : option (list Painter.Draw) :=
  modifiedHTF ← rescale houghTransformFrame;
  let w := (IZR (Z.of_N (width houghTransformFrame)) * scale)%R in
  let h := (IZR (Z.of_N (height houghTransformFrame)) * scale)%R in
  Some (Painter.DrawImage painter (windowWidth - w)%R (windowHeight - h)%R w h modifiedHTF).
End Hough.

(** * Vocabulary of the statements *)

Section Vocabulary.
Import Geometry Painter Clipper Overlay.
Local Open Scope R_scope.

(** The corner mapping of a window of [w] by [h] pixels: [DrawLine]
    from pixel (0,0) to pixel (w,h) has the vertices (-1,1) and (1,-1),
    and [DrawImage] of the rectangle covering the window has the corners
    left = -1, top = 1, right = 1, bottom = -1. *)
Definition corner_mapping (w h : N) : Prop :=
  let p := Painter w h in
  (forall red green blue, exists r g b,
      DrawLine p 0 0 (windowWidth p) (windowHeight p) red green blue =
      mkDraw GL_LINES 2
        (Some (-1) :: Some 1 :: Some 0 :: r :: g :: b ::
         Some 1 :: Some (-1) :: Some 0 :: r :: g :: b :: nil)
        (0 :: 1 :: nil)%nat None Screen :: nil) /\
  (forall image, Image.data image <> nil ->
      DrawImage p 0 0 (windowWidth p) (windowHeight p) image =
      mkDraw GL_TRIANGLES 6
        (Some (-1) :: Some 1 :: Some 0 :: Some 0 :: Some 0 ::
         Some 1 :: Some 1 :: Some 0 :: Some 1 :: Some 0 ::
         Some 1 :: Some (-1) :: Some 0 :: Some 1 :: Some 1 ::
         Some (-1) :: Some (-1) :: Some 0 :: Some 0 :: Some 1 :: nil)
        (0 :: 1 :: 2 :: 2 :: 3 :: 0 :: nil)%nat (Some image) Screen :: nil).

(** The colour of the cluster at a position. *)
Definition palette (i : nat) : N * N * N :=
  nth (i mod 7) clusterColors (0, 0, 0)%N.

(** Vertex [k] of a buffer of 5 floats per vertex; triangle [t] of an
    index array. *)
Definition vertex_at (vs : list GLfloat) (k : nat) : list GLfloat :=
  firstn 5 (skipn (5 * k) vs).

Definition triangle_at (ixs : list nat) (t : nat) : list nat :=
  firstn 3 (skipn (3 * t) ixs).

Definition position (vs : list GLfloat) (k : nat) : R * R :=
  match vertex_at vs k with
  | Some px :: Some py :: _ => (px, py)
  | _ => (0, 0)
  end.

(** Twice the signed area of a triangle: positive when its corners run
    counter-clockwise. *)
Definition cross (p0 p1 p2 : R * R) : R :=
  (fst p1 - fst p0) * (snd p2 - snd p0) - (snd p1 - snd p0) * (fst p2 - fst p0).

(** The four coordinates of the control grid. *)
Definition grid (i : nat) : R := nth i (-1 :: -1 / 3 :: 1 / 3 :: 1 :: nil) 0.


End Vocabulary.

Section HoughVocabulary.
Import Image Hough.
Local Open Scope N_scope.

(** The relative error of one rounding is below [2^-23]. *)
Definition eps : Q := 1 # 8388608.

(** The invariant of an image with data: 3 bytes per pixel, and a size
    that [unsigned int] arithmetic computes without wrapping. *)
Definition well_formed (frame : Image.t) : Prop :=
  N.of_nat (length (data frame)) = width frame * height frame * 3 /\
  width frame * height frame * 3 < 2 ^ 32.

(** The 16-bit count of cell [x]. *)
Definition cell (frame : Image.t) (x : N) : N :=
  default 0 (read_u16 (data frame) (x * 3)).

(** The three channels of pixel [x]. *)
Definition pixel (img : Image.t) (x : N) : option (byte * byte * byte) :=
  r ← data img !! N.to_nat (x * 3);
  g ← data img !! N.to_nat (x * 3 + 1);
  b ← data img !! N.to_nat (x * 3 + 2);
  Some (r, g, b).

(** The three bytes written by one pass of the second loop. *)
Definition paint_cell (d : list byte) (x : N) (v : byte) : list byte :=
  <[N.to_nat (x * 3 + 2) := v]>
    (<[N.to_nat (x * 3 + 1) := v]> (<[N.to_nat (x * 3 + 0) := v]> d)).

(** The wording of the specification: the exact quotient
    [count * 255 / M], rounded to the nearest integer. *)
Definition spec_round_value (count M : N) : Z :=
  Binary32.rne (Binary32.of_N count * 255 / Binary32.of_N M).
End HoughVocabulary.

(** ** sudoku_solver_ar.cpp: [FitImage] *)

(** [FitImage] divides by the window size and by the larger ratio, and a
    zero there is not an error in IEEE arithmetic: the quotient is an
    infinity or a NaN and the computation goes on. Its [float]s are
    therefore binary32 values with both specials. Every value is
    non-negative (they come from [unsigned int]s), and none leaves the
    normal range (they lie between [2^-32] and [2^64]). *)
Module Float32.
Local Open Scope Q_scope.

Inductive t := Finite (q : Q) | Infinity | NaN.

(** [static_cast<float>] of an [unsigned int]; above [2^24] it rounds. *)
Definition of_N (n : N) : t := Finite (Binary32.round (inject_Z (Z.of_N n))).

Definition div (a b : t) : t :=
  match a, b with
  | NaN, _ | _, NaN => NaN
  | Infinity, Infinity => NaN
  | Infinity, Finite _ => Infinity
  | Finite _, Infinity => Finite 0
  | Finite x, Finite y =>
      if Qeq_bool y 0 then (if Qeq_bool x 0 then NaN else Infinity)
      else Finite (Binary32.round (x / y))
  end.

Definition mul (a b : t) : t :=
  match a, b with
  | NaN, _ | _, NaN => NaN
  | Infinity, Infinity => Infinity
  | Infinity, Finite y => if Qeq_bool y 0 then NaN else Infinity
  | Finite x, Infinity => if Qeq_bool x 0 then NaN else Infinity
  | Finite x, Finite y => Finite (Binary32.round (x * y))
  end.

(** [a < b]; false when either side is a NaN. *)
Definition lt (a b : t) : bool :=
  match a, b with
  | Finite x, Finite y => negb (Qle_bool y x)
  | Finite _, Infinity => true
  | _, _ => false
  end.

(** [std::max(a, b)] is [(a < b) ? b : a]. *)
Definition max (a b : t) : t := if lt a b then b else a.

(** [float] to [unsigned int]: the fraction is dropped; undefined when
    the result is not an [unsigned int], or for an infinity or a NaN. *)
Definition to_unsigned (a : t) : option N :=
  match a with
  | Finite x =>
      let z := Binary32.trunc x in
      if ((0 <=? z) && (z <? 2 ^ 32))%Z then Some (Z.to_N z) else None
  | Infinity | NaN => None
  end.
End Float32.

Module Fit.
Local Open Scope Z_scope.

(** [static_cast<int>] of an [unsigned int]: values from [2^31] on wrap
    to negative ones. *)
Definition to_int (n : N) : Z :=
  let z := Z.of_N n in if z <? 2 ^ 31 then z else z - 2 ^ 32.

Definition int_ok (z : Z) : bool := (- 2 ^ 31 <=? z) && (z <? 2 ^ 31).

(** [abs(static_cast<int>(window) - static_cast<int>(size)) / 2]; signed
    overflow, in the difference or in [abs], is undefined. *)
Definition centre (window size : N) : option N :=
  let d := to_int window - to_int size in
  if int_ok d then
    let a := Z.abs d in
    if int_ok a then Some (Z.to_N (Z.quot a 2)) else None
  else None.

(** Returns [(x, y, width, height)], the four output parameters. *)
Definition FitImage (windowWidth windowHeight : N) (image : Image.t)
    : option (N * N * N * N) :=
  let hRatio := Float32.div (Float32.of_N (Image.width image)) (Float32.of_N windowWidth) in
  let vRatio := Float32.div (Float32.of_N (Image.height image)) (Float32.of_N windowHeight) in
  let scale := Float32.div (Float32.Finite 1) (Float32.max hRatio vRatio) in
  width ← Float32.to_unsigned (Float32.mul (Float32.of_N (Image.width image)) scale);
  height ← Float32.to_unsigned (Float32.mul (Float32.of_N (Image.height image)) scale);
  x ← centre windowWidth width;
  y ← centre windowHeight height;
  Some (x, y, width, height).
End Fit.

(** ** sudoku_solver_ar.cpp: [OnKey] *)

Module Keys.
Local Open Scope Z_scope.

(** The constants of GLFW 3 ([GLFW/glfw3.h], an external header). *)
Definition GLFW_PRESS : Z := 1.
Definition GLFW_KEY_ESCAPE : Z := 256.
Definition GLFW_KEY_0 : Z := 48.
Definition GLFW_KEY_1 : Z := 49.
Definition GLFW_KEY_2 : Z := 50.
Definition GLFW_KEY_3 : Z := 51.

(** The four file-scope flags, and the close flag of the window that
    [glfwSetWindowShouldClose] sets. *)
Record State := mkState {
  shouldClose : bool;
  drawLines : bool;
  drawLineClusters : bool;
  drawPossiblePuzzleLineClusters : bool;
  drawHoughTransform : bool
}.

(** The state at start-up: every flag is [false]. *)
Definition initial : State := mkState false false false false false.

Definition OnKey (key scancode action mode : Z) (s : State) : State :=
  if negb (action =? GLFW_PRESS) then s
  else if key =? GLFW_KEY_ESCAPE then
    mkState true (drawLines s) (drawLineClusters s)
      (drawPossiblePuzzleLineClusters s) (drawHoughTransform s)
  else if key =? GLFW_KEY_0 then
    mkState (shouldClose s) (drawLines s) (drawLineClusters s)
      (drawPossiblePuzzleLineClusters s) (negb (drawHoughTransform s))
  else if key =? GLFW_KEY_1 then
    mkState (shouldClose s) (negb (drawLines s)) (drawLineClusters s)
      (drawPossiblePuzzleLineClusters s) (drawHoughTransform s)
  else if key =? GLFW_KEY_2 then
    mkState (shouldClose s) (drawLines s) (negb (drawLineClusters s))
      (drawPossiblePuzzleLineClusters s) (drawHoughTransform s)
  else if key =? GLFW_KEY_3 then
    mkState (shouldClose s) (drawLines s) (drawLineClusters s)
      (negb (drawPossiblePuzzleLineClusters s)) (drawHoughTransform s)
  else s.

(** One key event as GLFW delivers it: key, scancode, action, mods. *)
Definition Event : Type := (Z * Z * Z * Z)%type.

(** The callback run on a sequence of events, first event first. *)
Definition run (events : list Event) (s : State) : State :=
  fold_left (fun st '(key, scancode, action, mode) => OnKey key scancode action mode st)
            events s.

(** The number of presses of [key] among the events. *)
Fixpoint presses (key : Z) (events : list Event) : nat :=
  match events with
  | nil => 0
  | (k, _, a, _) :: rest =>
      ((if andb (k =? key)%Z (a =? GLFW_PRESS)%Z then 1 else 0) + presses key rest)%nat
  end.
End Keys.

(** ** sudoku_solver_ar.cpp: the two images of a frame *)

Module MainLoop.
Local Open Scope R_scope.

Definition PUZZLE_IMAGE_WIDTH : N := 600.
Definition PUZZLE_IMAGE_HEIGHT : N := PUZZLE_IMAGE_WIDTH.

(** Lines 253, 276, 291 and 292 of [main]: the painter is built for the
    framebuffer size, the camera frame is fitted into the window less the
    puzzle panel ([windowWidth - PUZZLE_IMAGE_WIDTH], computed in
    [unsigned int]), and the merged frame and the puzzle image are drawn.
    The merged frame and the puzzle image come from the image pipeline
    and from [ExtractImage]; here they are inputs. The results of
    [FitImage] are [unsigned int]s converted to [float] at the call. *)
Definition draw_images (windowWidth windowHeight : N)
    (frame mergedFrame puzzleFrame : Image.t) : option (list Painter.Draw) :=
  let painter := Painter.Painter windowWidth windowHeight in
  fit ← Fit.FitImage (u32 (windowWidth + (2 ^ 32 - PUZZLE_IMAGE_WIDTH))%N) windowHeight frame;
  let '(drawImageX, drawImageY, drawImageWidth, drawImageHeight) := fit in
  Some (Painter.DrawImage painter
          (IZR (Z.of_N drawImageX)) (IZR (Z.of_N drawImageY))
          (IZR (Z.of_N drawImageWidth)) (IZR (Z.of_N drawImageHeight)) mergedFrame
        ++ Painter.DrawImage painter 800 0
             (IZR (Z.of_N PUZZLE_IMAGE_WIDTH)) (IZR (Z.of_N PUZZLE_IMAGE_HEIGHT))
             puzzleFrame).
End MainLoop.

(** * Vocabulary of the further statements *)

Section FurtherVocabulary.
Import Geometry Painter Clipper.
Local Open Scope R_scope.

(** Every index of a draw points at a whole vertex of its buffer, of
    [stride] floats each, and the draw reads as many indices as it has. *)
Definition index_safe (stride : nat) (d : Draw) : Prop :=
  count d = length (indices d) /\
  Forall (fun i => (i * stride + stride <= length (vertices d))%nat) (indices d).

(** The texture coordinate of vertex [k] of a buffer of 5 floats per
    vertex. *)
Definition texcoord (vs : list GLfloat) (k : nat) : R * R :=
  match vertex_at vs k with
  | _ :: _ :: _ :: Some u :: Some v :: _ => (u, v)
  | _ => (0, 0)
  end.

(** The triangles of an index array, three indices each. *)
Fixpoint triangles (ixs : list nat) : list (nat * nat * nat) :=
  match ixs with
  | a :: b :: c :: rest => (a, b, c) :: triangles rest
  | _ => nil
  end.

(** The sum of the real numbers of a list. *)
Definition Rsum (l : list R) : R := fold_right Rplus 0 l.

(** A value in the range of normalised device coordinates. *)
Definition in_ndc (v : R) : Prop := -1 <= v <= 1.
End FurtherVocabulary.

(** * Properties of [Painter] *)

Section PainterProperties.
Import Painter.
Local Open Scope R_scope.

Lemma F_div_lit (a b : R) : b <> 0 -> F.div (F.lit a) (F.lit b) = Some (a / b).
Proof.
  intros Hb. unfold F.div, F.lit.
  destruct (Req_dec_T b 0) as [E | _]; [contradiction | reflexivity].
Qed.

Lemma F_div_zero (a : R) : F.div (F.lit a) (F.lit 0) = None.
Proof.
  unfold F.div, F.lit.
  destruct (Req_dec_T 0 0) as [_ | N]; [reflexivity | contradiction].
Qed.

Lemma IZR_of_N_nonzero (n : N) : (0 < n)%N -> IZR (Z.of_N n) <> 0.
Proof.
  intros Hn. apply not_0_IZR. lia.
Qed.

(** C1. A call of [ExtractImage] with a number of points other than 16,
    or with an empty source image, returns at once: the destination
    image after the call is the one before it (same width, same height,
    same buffer) and no draw call was issued, whatever the rasteriser
    and whatever the destination held. *)
Theorem ExtractImage_malformed_noop
    (glReadPixels : Draw -> list byte -> list byte)
    (srcImage : Image.t) (srcPoints : list Geometry.Point)
    (srcPointScaleX srcPointScaleY : R) (dstImage : Image.t)
    (dstImageWidth dstImageHeight : N) :
  length srcPoints <> 16%nat \/ Image.data srcImage = nil ->
  ExtractImage glReadPixels srcImage srcPoints srcPointScaleX srcPointScaleY
    dstImage dstImageWidth dstImageHeight = (dstImage, nil).
Proof.
  intros H. unfold ExtractImage.
  destruct (Image.data srcImage) as [| b d] eqn:Hd; [reflexivity |].
  destruct H as [Hlen | Hnil]; [| discriminate].
  cbn [is_empty].
  apply Nat.eqb_neq in Hlen. rewrite Hlen. reflexivity.
Qed.

(** C8, as the code has it. For every window size with a non-zero width
    and a non-zero height, pixel (0,0) maps to (-1,1) and pixel
    (windowWidth, windowHeight) maps to (1,-1), exactly, in [DrawLine]
    and in [DrawImage]. *)
Theorem corner_mapping_nonzero_window (w h : N) :
  (0 < w)%N -> (0 < h)%N -> corner_mapping w h.
Proof.
  intros Hw Hh. unfold corner_mapping.
  pose proof (IZR_of_N_nonzero w Hw) as HW.
  pose proof (IZR_of_N_nonzero h Hh) as HH.
  unfold Painter. cbv zeta. cbn [windowWidth windowHeight]. split.
  - intros red green blue.
    exists (F.div (F.lit (IZR (Z.of_N red))) (F.lit 255)),
           (F.div (F.lit (IZR (Z.of_N green))) (F.lit 255)),
           (F.div (F.lit (IZR (Z.of_N blue))) (F.lit 255)).
    unfold DrawLine. cbv zeta. cbn [windowWidth windowHeight].
    rewrite !(F_div_lit _ _ HW), !(F_div_lit _ _ HH).
    cbn [F.sub F.mul F.lift2 F.lit].
    repeat f_equal; field; assumption.
  - intros image Hne. unfold DrawImage.
    destruct (Image.data image) as [| b d]; [contradiction |].
    cbn [is_empty windowWidth windowHeight].
    rewrite !(F_div_lit _ _ HW), !(F_div_lit _ _ HH).
    cbn [F.add F.sub F.mul F.lift2 F.lit].
    repeat f_equal; field; assumption.
Qed.
End PainterProperties.

Lemma ExtractImage_malformed_noop_witness :
  let pts := repeat (Geometry.mkPoint 1 1) 15 in
  let src := Image.make 1 1 (x01 :: x02 :: x03 :: nil) in
  let dst := Image.make 1 1 (x0a :: x0b :: x0c :: nil) in
  (length pts <> 16%nat \/ Image.data src = nil) /\
  Painter.ExtractImage (fun _ b => b) src pts 1 1 dst 600 600 = (dst, nil).
Proof.
  cbv zeta. split.
  - left. cbn. lia.
  - apply ExtractImage_malformed_noop. left. cbn. lia.
Defined.

Lemma corner_mapping_nonzero_window_witness :
  (0 < 1400)%N /\ (0 < 600)%N /\ corner_mapping 1400 600.
Proof.
  split; [reflexivity |]. split; [reflexivity |].
  apply corner_mapping_nonzero_window; reflexivity.
Defined.

(** C8 as stated fails for the window size 0 by 0: the division by the
    window width has no finite result, and the first vertex of [DrawLine]
    is not (-1,1). *)
Lemma corner_mapping_zero_window : ~ corner_mapping 0 0.
Proof.
  intros [Hline _].
  destruct (Hline 0%N 0%N 0%N) as (r & g & b & E).
  unfold Painter.DrawLine, Painter.Painter in E. cbv zeta in E.
  cbn [Painter.windowWidth Painter.windowHeight Z.of_N] in E.
  rewrite !F_div_zero in E. cbn [F.mul F.sub F.lift2 F.lit] in E.
  discriminate E.
Qed.

(** * Properties of the line clipper *)

Section ClipperProperties.
Import Geometry Clipper.
Local Open Scope R_scope.

Lemma canonical_nonneg (line : Line) :
  0 <= rho line -> canonical line = (theta line, rho line).
Proof.
  intros H. unfold canonical. case_decide; [lra | reflexivity].
Qed.

Lemma canonical_neg (line : Line) :
  rho line < 0 ->
  canonical line = (fmodf (theta line + PI) (2 * PI), rho line * -1).
Proof.
  intros H. unfold canonical. case_decide; [reflexivity | lra].
Qed.





(** The vertical case: when the sine of the canonical angle is zero the
    call made is the vertical segment through the foot point. *)
Lemma draw_one_vertical (x y width height : R) (line : Line) (red green blue : N)
    (theta' rho' : R) :
  canonical line = (theta', rho') ->
  sin theta' = 0 ->
  draw_one x y width height line red green blue =
  Some (mkLineCall (x + cos theta' * rho') y (x + cos theta' * rho') (y + height)
          red green blue :: nil).
Proof.
  intros Hc Hs. unfold draw_one, clip. rewrite Hc.
  case_decide; [reflexivity | contradiction].
Qed.


End ClipperProperties.

Section ClipperExamples.
Import Geometry Clipper.
Local Open Scope R_scope.








(** The value of sine and cosine at pi / 4. *)
Lemma half_sqrt2 : 1 / sqrt 2 = sqrt 2 / 2.
Proof.
  pose proof sqrt2_neq_0 as Hn. pose proof (sqrt_sqrt 2) as Hs.
  apply (Rmult_eq_reg_l (sqrt 2)); [| exact Hn].
  field_simplify; [| exact Hn]. lra.
Qed.

(** C2, at its failing input. In the first branch (theta in (0, pi/2])
    nothing tests whether the line meets the rectangle: for
    theta = pi / 4, rho = 2 and the rectangle of width 1 and height 1
    the segment handed to [DrawLine] runs from (2 sqrt 2 - 1, 1) to
    (1, 2 sqrt 2 - 1). Both endpoints satisfy the equation of the line,
    and both are outside the rectangle, since 2 sqrt 2 - 1 > 1. *)
Theorem lower_right_branch_leaves_rectangle :
  let line := mkLine (PI / 4) 2 in
  let a := 2 * sqrt 2 - 1 in
  0 <= rho line /\
  0 < theta line <= PI / 2 /\
  clip 1 1 line = Segment a 1 1 a /\
  endpoints 1 (clip 1 1 line) = Some ((a, 1), (1, a)) /\
  a * cos (theta line) + 1 * sin (theta line) = rho line /\
  1 * cos (theta line) + a * sin (theta line) = rho line /\
  1 < a.
Proof.
  pose proof PI_RGT_0 as Hpi. cbv zeta.
  pose proof (sqrt_sqrt 2 ltac:(lra)) as Hsq.
  pose proof (sqrt_lt_R0 2 ltac:(lra)) as Hpos.
  assert (Hgt : 1 < 2 * sqrt 2 - 1) by nra.
  assert (Hclip : clip 1 1 (mkLine (PI / 4) 2) =
                  Segment (2 * sqrt 2 - 1) 1 1 (2 * sqrt 2 - 1)).
  { unfold clip. rewrite canonical_nonneg by (cbn; lra). cbn [theta rho].
    rewrite cos_PI4, sin_PI4, half_sqrt2.
    set (s := sqrt 2) in *.
    assert (Hm : - (s / 2 / (s / 2)) = -1) by (field; lra).
    rewrite Hm.
    replace (- (s / 2 * 2) * -1) with s by field.
    replace (s / 2 * 2 + s) with (2 * s) by field.
    replace ((- (s / 2 * 2) - s) / -1) with (2 * s) by field.
    replace ((1 - s / 2 * 2 - s) / -1) with (2 * s - 1) by field.
    replace (2 * s + 1 * -1) with (2 * s - 1) by field.
    repeat case_decide; try lra; try reflexivity. }
  split; [cbn; lra |]. split; [cbn; lra |]. split; [exact Hclip |].
  split; [rewrite Hclip; reflexivity |].
  cbn [theta rho]. rewrite cos_PI4, sin_PI4, half_sqrt2.
  split; [nra |]. split; [nra | exact Hgt].
Qed.
End ClipperExamples.

(** * Properties of the cluster overlay *)

Section OverlayProperties.
Import Geometry Clipper Overlay.
Local Open Scope R_scope.

(** What the loop draws: cluster [i] in the colour [palette i], with
    the index [i] as horizontal offset. *)
Lemma cluster_loop_spec (y width height : R) (rest : list (list Line)) :
  forall k : nat,
    cluster_loop y width height k rest =
    (fun per => concat per) <$>
      mapM (fun ic : nat * list Line =>
              let '(red, green, blue) := palette (fst ic) in
              DrawLines (INR (fst ic)) y width height (snd ic) red green blue)
           (zip (seq k (length rest)) rest).
Proof.
  unfold palette.
  induction rest as [| cluster rest IH]; intros k; [reflexivity |].
  cbn [cluster_loop length seq zip zip_with mapM fst snd].
  change (length clusterColors) with 7%nat.
  destruct (nth (k mod 7) clusterColors (0, 0, 0)%N) as [[red green] blue].
  destruct (DrawLines (INR k) y width height cluster red green blue) as [call |];
    [| reflexivity].
  cbn [mbind option_bind]. rewrite (IH (S k)).
  destruct (mapM _ (zip (seq (S k) (length rest)) rest)) as [calls |]; reflexivity.
Qed.

(** The placement [x] of the caller has no part in what is drawn. *)
Lemma DrawLineClusters_spec (x y width height : R) (lineClusters : list (list Line)) :
  DrawLineClusters x y width height lineClusters =
  (fun per => concat per) <$>
    mapM (fun ic : nat * list Line =>
            let '(red, green, blue) := palette (fst ic) in
            DrawLines (INR (fst ic)) y width height (snd ic) red green blue)
         (zip (seq 0 (length lineClusters)) lineClusters).
Proof.
  unfold DrawLineClusters. apply (cluster_loop_spec y width height lineClusters 0).
Qed.

Lemma draw_one_theta_0 (x y width height : R) (r : R) (red green blue : N) :
  0 <= r ->
  draw_one x y width height (mkLine 0 r) red green blue =
  Some (mkLineCall (x + r) y (x + r) (y + height) red green blue :: nil).
Proof.
  intros Hr.
  rewrite (draw_one_vertical x y width height (mkLine 0 r) red green blue 0 r).
  - rewrite cos_0. repeat f_equal; ring.
  - apply (canonical_nonneg (mkLine 0 r)). exact Hr.
  - apply sin_0.
Qed.

(** C7, at its failing input. Two clusters, each holding the vertical
    line rho = 5, theta = 0, drawn with the placement (100, 0) in a
    10 by 10 rectangle: the colours are those of positions 0 and 1 of
    the palette, but the segments are at x = 0 + 5 and x = 1 + 5, the
    cluster index taken as offset, and not at x = 100 + 5. *)
Theorem cluster_offset_is_the_index :
  DrawLineClusters 100 0 10 10
    ((mkLine 0 5 :: nil) :: (mkLine 0 5 :: nil) :: nil) =
  Some (mkLineCall 5 0 5 10 255 0 0 :: mkLineCall 6 0 6 10 128 0 255 :: nil).
Proof.
  unfold DrawLineClusters.
  cbn [cluster_loop DrawLines length clusterColors Nat.modulo
       Nat.divmod nth fst snd Nat.sub].
  rewrite !draw_one_theta_0 by lra.
  cbn [mbind option_bind INR app]. repeat f_equal; ring.
Qed.
End OverlayProperties.

(** * The control mesh of [ExtractImage] *)

Section MeshProperties.
Import Geometry Painter.
Local Open Scope R_scope.

Lemma lt4_cases (n : nat) :
  (n < 4)%nat -> n = 0%nat \/ n = 1%nat \/ n = 2%nat \/ n = 3%nat.
Proof. lia. Qed.

Lemma extract_vertex_at (p0 p1 p2 p3 p4 p5 p6 p7 p8 p9 p10 p11 p12 p13 p14 p15 : Point)
    (sx sy : R) (x y : nat) :
  (x < 4)%nat -> (y < 4)%nat ->
  let pts := p0 :: p1 :: p2 :: p3 :: p4 :: p5 :: p6 :: p7 :: p8 :: p9 :: p10 ::
             p11 :: p12 :: p13 :: p14 :: p15 :: nil in
  vertex_at (extract_vertices pts sx sy) (4 * y + x) =
  Some (grid x) :: Some (grid y) :: Some 0 ::
  Some (Geometry.x (nth (4 * y + x) pts (mkPoint 0 0)) * sx) ::
  Some (Geometry.y (nth (4 * y + x) pts (mkPoint 0 0)) * sy) :: nil.
Proof.
  intros Hx Hy pts.
  destruct (lt4_cases x Hx) as [-> | [-> | [-> | ->]]];
    destruct (lt4_cases y Hy) as [-> | [-> | [-> | ->]]];
    cbn; unfold F.lit; repeat f_equal; lra.
Qed.

Lemma lt3_cases (n : nat) : (n < 3)%nat -> n = 0%nat \/ n = 1%nat \/ n = 2%nat.
Proof. lia. Qed.

(** C5. A call with a non-empty source image and 16 points issues one
    draw of 18 triangles (54 indices) over 16 vertices of 5 floats. The
    vertex of column [x] and row [y] is number [4 y + x]; it lies at
    ([grid x], [grid y]) of the grid -1, -1/3, 1/3, 1 (spacing 2/3 from
    -1 to 1) and carries the texture coordinate of [srcPoints[4 y + x]]
    scaled by [(srcPointScaleX, srcPointScaleY)]. The cell of column
    [cx] and row [cy], with lower corner [i = 4 cy + cx], is covered by
    the triangles [(i, i+1, i+5)] and [(i, i+5, i+4)], and all 18
    triangles have the same winding (twice the signed area is 4/9). *)
Theorem ExtractImage_mesh
    (glReadPixels : Draw -> list byte -> list byte)
    (srcImage : Image.t) (srcPoints : list Point)
    (srcPointScaleX srcPointScaleY : R) (dstImage : Image.t)
    (dstImageWidth dstImageHeight : N) :
  Image.data srcImage <> nil ->
  length srcPoints = 16%nat ->
  exists draw,
    snd (ExtractImage glReadPixels srcImage srcPoints srcPointScaleX srcPointScaleY
           dstImage dstImageWidth dstImageHeight) = draw :: nil /\
    mode draw = GL_TRIANGLES /\
    count draw = (18 * 3)%nat /\
    texture draw = Some srcImage /\
    target draw = Offscreen dstImageWidth dstImageHeight /\
    length (vertices draw) = (16 * 5)%nat /\
    (forall x y : nat, (x < 4)%nat -> (y < 4)%nat ->
       exists pt,
         srcPoints !! (4 * y + x)%nat = Some pt /\
         vertex_at (vertices draw) (4 * y + x) =
         Some (grid x) :: Some (grid y) :: Some 0 ::
         Some (Geometry.x pt * srcPointScaleX) ::
         Some (Geometry.y pt * srcPointScaleY) :: nil) /\
    (grid 0 = -1 /\ grid 3 = 1 /\
     forall i : nat, (i < 3)%nat -> grid (S i) - grid i = 2 / 3) /\
    length (indices draw) = (18 * 3)%nat /\
    (forall cx cy : nat, (cx < 3)%nat -> (cy < 3)%nat ->
       let i := (4 * cy + cx)%nat in
       triangle_at (indices draw) (2 * (3 * cy + cx)) =
         (i :: i + 1 :: i + 5 :: nil)%nat /\
       triangle_at (indices draw) (2 * (3 * cy + cx) + 1) =
         (i :: i + 5 :: i + 4 :: nil)%nat) /\
    (forall t : nat, (t < 18)%nat ->
       exists a b c,
         triangle_at (indices draw) t = a :: b :: c :: nil /\
         cross (position (vertices draw) a) (position (vertices draw) b)
               (position (vertices draw) c) = 4 / 9).
Proof.
  intros Hdata Hlen.
  do 16 (destruct srcPoints as [| ? srcPoints]; [discriminate Hlen |]).
  destruct srcPoints as [| ? ?]; [clear Hlen | discriminate Hlen].
  unfold ExtractImage.
  destruct (Image.data srcImage) as [| b0 d0] eqn:Hd; [contradiction |].
  cbn [is_empty length Nat.eqb negb snd].
  eexists. split; [reflexivity |].
  cbn [mode count texture target vertices indices].
  split; [reflexivity |]. split; [reflexivity |]. split; [reflexivity |].
  split; [reflexivity |]. split; [reflexivity |].
  split.
  { intros x y Hx Hy.
    pose proof (extract_vertex_at p p0 p1 p2 p3 p4 p5 p6 p7 p8 p9 p10 p11 p12 p13 p14
                  srcPointScaleX srcPointScaleY x y Hx Hy) as Hv.
    cbv zeta in Hv. rewrite Hv. clear Hv.
    destruct (lt4_cases x Hx) as [-> | [-> | [-> | ->]]];
      destruct (lt4_cases y Hy) as [-> | [-> | [-> | ->]]];
      (eexists; split; reflexivity). }
  split.
  { unfold grid. cbn [nth]. split; [reflexivity |]. split; [reflexivity |].
    intros i Hi. destruct (lt3_cases i Hi) as [-> | [-> | ->]]; cbn [nth]; lra. }
  split; [reflexivity |].
  split.
  { intros cx cy Hcx Hcy.
    destruct (lt3_cases cx Hcx) as [-> | [-> | ->]];
      destruct (lt3_cases cy Hcy) as [-> | [-> | ->]]; split; reflexivity. }
  intros t Ht.
  do 18 (destruct t as [| t];
         [do 3 eexists; split; [reflexivity |];
          unfold cross, position; cbn; lra |]).
  lia.
Qed.
End MeshProperties.

Lemma ExtractImage_mesh_witness :
  let pts := repeat (Geometry.mkPoint 1 1) 16 in
  let src := Image.make 1 1 (x01 :: x02 :: x03 :: nil) in
  let dst := Image.make 0 0 nil in
  Image.data src <> nil /\
  length pts = 16%nat /\
  exists draw,
    snd (Painter.ExtractImage (fun _ b => b) src pts 1 1 dst 600 600) = draw :: nil /\
    Painter.count draw = 54%nat.
Proof.
  cbv zeta.
  assert (H1 : Image.data (Image.make 1 1 (x01 :: x02 :: x03 :: nil)) <> nil)
    by (cbn; discriminate).
  assert (H2 : length (repeat (Geometry.mkPoint 1 1) 16) = 16%nat) by reflexivity.
  split; [exact H1 |]. split; [exact H2 |].
  destruct (ExtractImage_mesh (fun _ b => b) _ _ 1%R 1%R (Image.make 0 0 nil) 600 600 H1 H2)
    as (draw & Hs & _ & Hc & _).
  exists draw. split; [exact Hs | exact Hc].
Defined.

(** * Properties of the binary32 model *)

Section Binary32Properties.
Import Binary32.
Local Open Scope Q_scope.

Lemma rne_bounds (s : Q) : (Qfloor s <= rne s <= Qfloor s + 1)%Z.
Proof.
  unfold rne, Qfloor. destruct s as [n d]. cbn [Qnum Qden].
  destruct (2 * (n mod Z.pos d) <? Z.pos d)%Z; [lia |].
  destruct (Z.pos d <? 2 * (n mod Z.pos d))%Z; [lia |].
  destruct (Z.even (n / Z.pos d)); lia.
Qed.

Lemma rne_upper (s : Q) : inject_Z (rne s) <= s + 1.
Proof.
  pose proof (rne_bounds s) as [_ H]. pose proof (Qfloor_le s) as Hf.
  rewrite Zle_Qle in H. rewrite inject_Z_plus in H.
  change (inject_Z 1) with 1 in H. lra.
Qed.

Lemma rne_nonneg (s : Q) : 0 <= s -> (0 <= rne s)%Z.
Proof.
  intros Hs. pose proof (rne_bounds s) as [H _].
  pose proof (Qfloor_resp_le 0 s Hs) as H0.
  change (Qfloor 0) with 0%Z in H0. lia.
Qed.

Lemma pow2_pos (z : Z) : 0 < 2 ^ z.
Proof. apply Qpower_0_lt. reflexivity. Qed.

Lemma ilog2_le (x : Q) : 0 < x -> 2 ^ ilog2 x <= x.
Proof.
  intros Hx. unfold ilog2.
  destruct (Qle_bool _ x) eqn:E; [apply Qle_bool_iff; exact E |].
  destruct x as [n d]. cbn [Qnum Qden].
  assert (Hn : (0 < n)%Z) by (unfold Qlt in Hx; cbn in Hx; lia).
  pose proof (Z.log2_spec n Hn) as [Ha _].
  pose proof (Z.log2_spec (Z.pos d) ltac:(lia)) as [_ Hb].
  pose proof (Z.log2_nonneg n) as Hna.
  pose proof (Z.log2_nonneg (Z.pos d)) as Hnb.
  set (a := Z.log2 n) in *. set (b := Z.log2 (Z.pos d)) in *.
  replace (a - b - 1)%Z with (a + - (b + 1))%Z by lia.
  rewrite Qpower_plus by discriminate. rewrite Qpower_opp.
  rewrite Zle_Qle in Ha. rewrite Zlt_Qlt in Hb.
  rewrite Zpower_Qpower in Ha, Hb by lia.
  change (inject_Z 2) with 2 in Ha, Hb.
  replace (Z.succ b) with (b + 1)%Z in Hb by lia.
  pose proof (pow2_pos a) as Pa. pose proof (pow2_pos (b + 1)) as Pb.
  rewrite (Qmake_Qdiv n d).
  assert (Hd : 0 < inject_Z (Z.pos d)) by (change 0 with (inject_Z 0); rewrite <- Zlt_Qlt; lia).
  set (A := 2 ^ a) in *. set (B := 2 ^ (b + 1)) in *.
  set (N := inject_Z n) in *. set (D := inject_Z (Z.pos d)) in *.
  apply Qle_shift_div_l; [exact Hd |].
  assert (H1 : A * / B * B == A) by (field; lra).
  assert (H2 : A * / B * D <= A * / B * B).
  { assert (0 <= A * / B); [| nra].
    apply Qmult_le_0_compat; [lra |]. apply Qlt_le_weak, Qinv_lt_0_compat, Pb. }
  lra.
Qed.

Lemma ilog2_lt (x : Q) : 0 < x -> x < 2 ^ (ilog2 x + 1).
Proof.
  intros Hx. unfold ilog2.
  destruct (Qle_bool _ x) eqn:E.
  - destruct x as [n d]. cbn [Qnum Qden].
    assert (Hn : (0 < n)%Z) by (unfold Qlt in Hx; cbn in Hx; lia).
    pose proof (Z.log2_spec n Hn) as [_ Ha].
    pose proof (Z.log2_spec (Z.pos d) ltac:(lia)) as [Hb _].
    pose proof (Z.log2_nonneg n) as Hna.
    pose proof (Z.log2_nonneg (Z.pos d)) as Hnb.
    set (a := Z.log2 n) in *. set (b := Z.log2 (Z.pos d)) in *.
    replace (a - b + 1)%Z with (a + 1 + - b)%Z by lia.
    rewrite Qpower_plus by discriminate. rewrite Qpower_opp.
    rewrite Zlt_Qlt in Ha. rewrite Zle_Qle in Hb.
    rewrite Zpower_Qpower in Ha, Hb by lia.
    change (inject_Z 2) with 2 in Ha, Hb.
    replace (Z.succ a) with (a + 1)%Z in Ha by lia.
    pose proof (pow2_pos (a + 1)) as Pa. pose proof (pow2_pos b) as Pb.
    rewrite (Qmake_Qdiv n d).
    assert (Hd : 0 < inject_Z (Z.pos d))
      by (change 0 with (inject_Z 0); rewrite <- Zlt_Qlt; lia).
    set (A := 2 ^ (a + 1)) in *. set (B := 2 ^ b) in *.
    set (N := inject_Z n) in *. set (D := inject_Z (Z.pos d)) in *.
    apply Qlt_shift_div_r; [exact Hd |].
    assert (H1 : A * / B * B == A) by (field; lra).
    assert (H2 : A * / B * B <= A * / B * D).
    { assert (0 <= A * / B); [| nra].
      apply Qmult_le_0_compat; [lra |]. apply Qlt_le_weak, Qinv_lt_0_compat, Pb. }
    lra.
  - replace (Z.log2 (Qnum x) - Z.log2 (Z.pos (Qden x)) - 1 + 1)%Z
      with (Z.log2 (Qnum x) - Z.log2 (Z.pos (Qden x)))%Z by lia.
    apply Qnot_le_lt. intros H. apply Qle_bool_iff in H. congruence.
Qed.

(** Two values of the model against their binary32 encodings: 1/3 is
    0x3EAAAAAB and 255/7 is 0x4211B6DB. *)
Example round_one_third : round (1 # 3) = 11184811 # 33554432.
Proof. reflexivity. Qed.

Example round_255_over_7 : round (255 # 7) == 9549531 # 262144.
Proof. vm_compute. reflexivity. Qed.

Lemma round_pos_upper (x : Q) : 0 < x -> round_pos x <= x * (1 + eps).
Proof.
  intros Hx. unfold round_pos.
  pose proof (ilog2_le x Hx) as He. set (e := ilog2 x) in *.
  pose proof (rne_upper (x * 2 ^ (23 - e))) as Hr.
  pose proof (pow2_pos (e - 23)) as Pp.
  assert (H1 : 2 ^ (23 - e) * 2 ^ (e - 23) == 1).
  { rewrite <- Qpower_plus by discriminate.
    replace (23 - e + (e - 23))%Z with 0%Z by lia. reflexivity. }
  assert (H2 : 2 ^ (e - 23) == 2 ^ e * eps).
  { unfold Z.sub. rewrite Qpower_plus by discriminate. reflexivity. }
  set (P := 2 ^ (e - 23)) in *. set (Q' := 2 ^ (23 - e)) in *.
  set (E := 2 ^ e) in *. set (r := inject_Z (rne (x * Q'))) in *.
  assert (H3 : r * P <= (x * Q' + 1) * P) by nra.
  assert (H4 : (x * Q' + 1) * P == x * (Q' * P) + P) by ring.
  assert (H5 : x * (Q' * P) == x) by (rewrite H1; ring).
  assert (Heps : 0 < eps) by reflexivity.
  nra.
Qed.

Lemma round_pos_nonneg (x : Q) : 0 < x -> 0 <= round_pos x.
Proof.
  intros Hx. unfold round_pos.
  apply Qmult_le_0_compat; [| apply Qlt_le_weak, pow2_pos].
  change 0 with (inject_Z 0). rewrite <- Zle_Qle. apply rne_nonneg.
  apply Qmult_le_0_compat; [lra | apply Qlt_le_weak, pow2_pos].
Qed.

Lemma round_pos_lower (x : Q) : 0 < x -> x * (1 - eps) <= round_pos x.
Proof.
  intros Hx. unfold round_pos.
  pose proof (ilog2_le x Hx) as He. set (e := ilog2 x) in *.
  pose proof (rne_bounds (x * 2 ^ (23 - e))) as [Hr _].
  pose proof (Qlt_floor (x * 2 ^ (23 - e))) as Hf.
  rewrite Zle_Qle in Hr. rewrite inject_Z_plus in Hf.
  change (inject_Z 1) with 1 in Hf.
  pose proof (pow2_pos (e - 23)) as Pp.
  assert (H1 : 2 ^ (23 - e) * 2 ^ (e - 23) == 1).
  { rewrite <- Qpower_plus by discriminate.
    replace (23 - e + (e - 23))%Z with 0%Z by lia. reflexivity. }
  assert (H2 : 2 ^ (e - 23) == 2 ^ e * eps).
  { unfold Z.sub. rewrite Qpower_plus by discriminate. reflexivity. }
  set (P := 2 ^ (e - 23)) in *. set (Q' := 2 ^ (23 - e)) in *.
  set (E := 2 ^ e) in *. set (r := inject_Z (rne (x * Q'))) in *.
  set (f := inject_Z (Qfloor (x * Q'))) in *.
  assert (H3 : (x * Q' - 1) * P <= r * P) by nra.
  assert (H4 : (x * Q' - 1) * P == x * (Q' * P) - P) by ring.
  assert (H5 : x * (Q' * P) == x) by (rewrite H1; ring).
  assert (Heps : 0 < eps) by reflexivity.
  nra.
Qed.

Lemma round_bounds (x : Q) :
  0 <= x -> 0 <= round x /\ x * (1 - eps) <= round x <= x * (1 + eps).
Proof.
  intros Hx. unfold round. destruct x as [[| n | n] d]; cbn [Qnum].
  - assert (H0 : 0 # d == 0) by reflexivity. rewrite H0. lra.
  - assert (Hp : 0 < Z.pos n # d) by reflexivity.
    pose proof (round_pos_nonneg _ Hp). pose proof (round_pos_upper _ Hp).
    pose proof (round_pos_lower _ Hp). tauto.
  - exfalso. unfold Qle in Hx. cbn in Hx. lia.
Qed.

Lemma to_uchar_total (x : Q) :
  0 <= x -> x < 256 ->
  exists b, to_uchar x = Some b /\ Z.of_N (Byte.to_N b) = Qfloor x.
Proof.
  intros H0 H256. unfold to_uchar, trunc.
  assert (E : Qle_bool 0 x = true) by (apply Qle_bool_iff; exact H0).
  rewrite E.
  pose proof (Qfloor_resp_le 0 x H0) as Hlo. change (Qfloor 0) with 0%Z in Hlo.
  assert (Hhi : (Qfloor x < 256)%Z).
  { rewrite Zlt_Qlt. pose proof (Qfloor_le x) as Hf.
    change (inject_Z 256) with 256. lra. }
  replace ((0 <=? Qfloor x)%Z && (Qfloor x <? 256)%Z)%bool with true
    by (symmetry; apply andb_true_intro; split; [apply Z.leb_le | apply Z.ltb_lt]; lia).
  destruct (Byte.of_N (Z.to_N (Qfloor x))) as [b |] eqn:Eb.
  - exists b. split; [reflexivity |]. apply Byte.to_of_N in Eb. lia.
  - apply Byte.of_N_None_iff in Eb. lia.
Qed.
Lemma of_N_pos (M : N) : (0 < M)%N -> 0 < of_N M.
Proof.
  intros H. unfold of_N. change 0 with (inject_Z 0). rewrite <- Zlt_Qlt. lia.
Qed.

Lemma of_N_le (c M : N) : (c <= M)%N -> 0 <= of_N c <= of_N M.
Proof.
  intros H. unfold of_N. change 0 with (inject_Z 0).
  rewrite <- !Zle_Qle. lia.
Qed.

Lemma div_255 (M : N) :
  (0 < M)%N ->
  div 255 (of_N M) = Some (round (255 / of_N M)) /\
  of_N M * (255 / of_N M) == 255 /\ 0 < 255 / of_N M.
Proof.
  intros HM. pose proof (of_N_pos M HM) as Hp. unfold div.
  destruct (Qeq_bool (of_N M) 0) eqn:E.
  - apply Qeq_bool_iff in E. lra.
  - split; [reflexivity |]. split; [field; lra |].
    apply Qlt_shift_div_l; [exact Hp | lra].
Qed.

(** The product of a count with the multiplier, rounded twice, stays
    close to [255 * count / maximum]: it never reaches 256, and at the
    maximum itself it stays above 254. *)
Lemma product_bounds (c M : N) :
  (0 < M)%N -> (c <= M)%N ->
  let p := mul (of_N c) (round (255 / of_N M)) in
  0 <= p /\ p < 256 /\ (c = M -> 254 < p).
Proof.
  intros HM Hc p. subst p. unfold mul.
  destruct (div_255 M HM) as (_ & Hid & Hx).
  pose proof (of_N_le c M Hc) as [Hc0 HcM].
  pose proof (of_N_pos M HM) as HMp.
  destruct (round_bounds (255 / of_N M) ltac:(lra)) as (Hm0 & Hml & Hmu).
  set (x := 255 / of_N M) in *. set (m := round x) in *.
  set (cq := of_N c) in *. set (Mq := of_N M) in *.
  assert (Hcm : 0 <= cq * m) by (apply Qmult_le_0_compat; assumption).
  destruct (round_bounds (cq * m) Hcm) as (Hp0 & Hpl & Hpu).
  unfold eps in *.
  assert (H1 : cq * m <= Mq * m) by nra.
  assert (H2 : Mq * m <= 255 * (1 + (1 # 8388608))) by nra.
  split; [exact Hp0 |]. split; [nra |].
  intros ->. change cq with Mq in *.
  assert (H3 : Mq * (x * (1 - (1 # 8388608))) <= Mq * m).
  { apply Qmult_le_l; assumption. }
  assert (H4 : 255 * (1 - (1 # 8388608)) <= Mq * m) by nra.
  nra.
Qed.
End Binary32Properties.

(** * Properties of the Hough preview *)

Section HoughProperties.
Import Image Hough.
Local Open Scope N_scope.

Lemma u32_small (n : N) : n < 2 ^ 32 -> u32 n = n.
Proof. intros H. unfold u32. apply N.mod_small, H. Qed.

Lemma read_u16_some (d : list byte) (i : N) :
  (N.to_nat i + 1 < length d)%nat -> exists v, read_u16 d i = Some v.
Proof.
  intros H. unfold read_u16.
  destruct (lookup_lt_is_Some_2 d (N.to_nat i) ltac:(lia)) as [lo ->].
  destruct (lookup_lt_is_Some_2 d (S (N.to_nat i)) ltac:(lia)) as [hi ->].
  cbn. eexists. reflexivity.
Qed.

Section WellFormed.
Variable frame : Image.t.
Hypothesis Hwf : well_formed frame.

Lemma cell_count_exact : cell_count frame = width frame * height frame.
Proof.
  destruct Hwf as [_ Hsz]. unfold cell_count. apply u32_small.
  change (2 ^ 32) with 4294967296 in *. lia.
Qed.

Lemma index_exact (x k : N) :
  x < cell_count frame -> k < 3 ->
  u32 (x * 3) = x * 3 /\ u32 (x * 3 + k) = x * 3 + k /\
  (N.to_nat (x * 3 + k) < length (data frame))%nat.
Proof.
  rewrite cell_count_exact. destruct Hwf as [Hlen Hsz]. intros Hx Hk.
  change (2 ^ 32) with 4294967296 in *.
  split; [apply u32_small; change (2 ^ 32) with 4294967296; lia |].
  split; [apply u32_small; change (2 ^ 32) with 4294967296; lia |]. lia.
Qed.

Lemma read_cell (x : N) :
  x < cell_count frame ->
  read_u16 (data frame) (u32 (x * 3)) = Some (cell frame x).
Proof.
  intros Hx. destruct (index_exact x 1 Hx ltac:(lia)) as (-> & _ & Hb).
  destruct (read_u16_some (data frame) (x * 3) ltac:(lia)) as [v Hv].
  unfold cell. rewrite Hv. reflexivity.
Qed.

(** The first loop returns, with the largest count seen. *)
Lemma find_maximum_spec (n : nat) :
  forall x acc : N,
    x + N.of_nat n = cell_count frame ->
    exists M,
      find_maximum frame n x acc = Some M /\
      acc <= M /\
      (forall i, x <= i < cell_count frame -> cell frame i <= M) /\
      (M = acc \/ exists i, x <= i < cell_count frame /\ cell frame i = M).
Proof.
  induction n as [| n IH]; intros x acc Hn.
  - exists acc. cbn [find_maximum].
    split; [reflexivity |]. split; [lia |]. split; [intros i Hi; lia | left; reflexivity].
  - cbn [find_maximum]. rewrite (read_cell x) by lia. cbn [mbind option_bind].
    destruct (IH (x + 1) (N.max acc (cell frame x)) ltac:(lia))
      as (M & HM & Hacc & Hle & Hatt).
    exists M. split; [exact HM |]. split; [lia |]. split.
    + intros i Hi. destruct (N.eq_dec i x) as [-> | Hne]; [lia |].
      apply Hle. lia.
    + destruct Hatt as [-> | (i & Hi & Hc)].
      * destruct (N.max_spec acc (cell frame x)) as [[_ ->] | [_ ->]].
        -- right. exists x. split; [lia | reflexivity].
        -- left. reflexivity.
      * right. exists i. split; [lia | exact Hc].
Qed.

Lemma maximum_spec :
  exists M,
    maximum frame = Some M /\
    (forall i, i < cell_count frame -> cell frame i <= M) /\
    (M = 0 \/ exists i, i < cell_count frame /\ cell frame i = M).
Proof.
  destruct (find_maximum_spec (N.to_nat (cell_count frame)) 0 0 ltac:(lia))
    as (M & HM & _ & Hle & Hatt).
  exists M. split; [exact HM |]. split.
  - intros i Hi. apply Hle. lia.
  - destruct Hatt as [-> | (i & Hi & Hc)]; [left; reflexivity |].
    right. exists i. split; [lia | exact Hc].
Qed.
Lemma store_ok (d : list byte) (i : N) (v : byte) :
  (N.to_nat i < length d)%nat -> store d i v = Some (<[N.to_nat i := v]> d).
Proof.
  intros H. unfold store. case_decide; [reflexivity | contradiction].
Qed.

Lemma paint_cell_length (d : list byte) (x : N) (v : byte) :
  length (paint_cell d x v) = length d.
Proof. unfold paint_cell. rewrite !length_insert. reflexivity. Qed.

Lemma paint_cell_same (d : list byte) (x k : N) (v : byte) :
  (N.to_nat (x * 3 + 2) < length d)%nat -> k < 3 ->
  paint_cell d x v !! N.to_nat (x * 3 + k) = Some v.
Proof.
  intros Hlen Hk. unfold paint_cell.
  assert (Hc : k = 0 \/ k = 1 \/ k = 2) by lia.
  destruct Hc as [-> | [-> | ->]].
  - rewrite list_lookup_insert_ne by lia. rewrite list_lookup_insert_ne by lia.
    apply list_lookup_insert_eq. lia.
  - rewrite list_lookup_insert_ne by lia.
    apply list_lookup_insert_eq. rewrite length_insert. lia.
  - apply list_lookup_insert_eq. rewrite !length_insert. lia.
Qed.

Lemma paint_cell_other (d : list byte) (x : N) (v : byte) (j : nat) :
  (j < N.to_nat (x * 3))%nat \/ (N.to_nat (x * 3 + 2) < j)%nat ->
  paint_cell d x v !! j = d !! j.
Proof.
  intros Hj. unfold paint_cell.
  rewrite !list_lookup_insert_ne by lia. reflexivity.
Qed.

Variable mult : option Q.

Lemma rescale_step (n : nat) (x : N) (modified : list byte) (v : byte) :
  x < cell_count frame ->
  rescale_value mult (cell frame x) = Some v ->
  length modified = length (data frame) ->
  rescale_loop frame mult (S n) x modified =
  rescale_loop frame mult n (x + 1) (paint_cell modified x v).
Proof.
  intros Hx Hv Hlen. cbn [rescale_loop].
  rewrite (read_cell x Hx). cbn [mbind option_bind]. rewrite Hv.
  cbn [mbind option_bind].
  destruct (index_exact x 0 Hx ltac:(lia)) as (E & E0 & L0).
  destruct (index_exact x 1 Hx ltac:(lia)) as (_ & E1 & L1).
  destruct (index_exact x 2 Hx ltac:(lia)) as (_ & E2 & L2).
  rewrite E, E0, E1, E2.
  rewrite store_ok by lia. cbn [mbind option_bind].
  rewrite store_ok by (rewrite length_insert; lia). cbn [mbind option_bind].
  rewrite store_ok by (rewrite !length_insert; lia). cbn [mbind option_bind].
  reflexivity.
Qed.

Hypothesis Hval :
  forall i, i < cell_count frame -> is_Some (rescale_value mult (cell frame i)).

(** The second loop returns; every cell it has passed holds the byte
    computed for its count, in all three channels. *)
Lemma rescale_loop_spec (n : nat) :
  forall (x : N) (modified : list byte),
    x + N.of_nat n = cell_count frame ->
    length modified = length (data frame) ->
    exists out,
      rescale_loop frame mult n x modified = Some out /\
      length out = length modified /\
      (forall i v k, x <= i < cell_count frame ->
         rescale_value mult (cell frame i) = Some v -> k < 3 ->
         out !! N.to_nat (i * 3 + k) = Some v) /\
      (forall j, (j < N.to_nat (x * 3))%nat -> out !! j = modified !! j).
Proof.
  induction n as [| n IH]; intros x modified Hn Hlen.
  - exists modified. cbn [rescale_loop]. split; [reflexivity |].
    split; [reflexivity |]. split; [intros i v k Hi; lia |]. reflexivity.
  - assert (Hx : x < cell_count frame) by lia.
    destruct (Hval x Hx) as [v Hv].
    rewrite (rescale_step n x modified v Hx Hv Hlen).
    destruct (index_exact x 2 Hx ltac:(lia)) as (_ & _ & L2).
    destruct (IH (x + 1) (paint_cell modified x v) ltac:(lia)
                ltac:(rewrite paint_cell_length; exact Hlen))
      as (out & Hout & Hl & Hcells & Hkeep).
    exists out. split; [exact Hout |].
    split; [rewrite Hl; apply paint_cell_length |]. split.
    + intros i v' k Hi Hv' Hk.
      destruct (N.eq_dec i x) as [-> | Hne].
      * rewrite Hkeep by lia. rewrite Hv in Hv'. injection Hv' as <-.
        apply paint_cell_same; [lia | exact Hk].
      * apply Hcells; [lia | exact Hv' | exact Hk].
    + intros j Hj. rewrite Hkeep by lia. apply paint_cell_other. lia.
Qed.
End WellFormed.
End HoughProperties.

Section HoughTheorems.
Import Image Hough.
Local Open Scope N_scope.

Lemma multiplier_some (M : N) :
  0 < M -> multiplier M = Some (Binary32.round (255 / Binary32.of_N M)).
Proof. intros HM. apply (div_255 M HM). Qed.

Lemma multiplier_zero : multiplier 0 = None.
Proof. reflexivity. Qed.

(** The byte of a cell is defined whenever the maximum is positive: the
    floor of the twice rounded product. *)
Lemma rescale_value_total (M c : N) :
  0 < M -> c <= M ->
  exists v,
    rescale_value (multiplier M) c = Some v /\
    Z.of_N (Byte.to_N v) =
    Qfloor (Binary32.round
              (Binary32.of_N c * Binary32.round (255 / Binary32.of_N M))).
Proof.
  intros HM Hc. rewrite (multiplier_some M HM).
  destruct (product_bounds c M HM Hc) as (H0 & H256 & _).
  unfold rescale_value. cbn [mbind option_bind].
  apply to_uchar_total; assumption.
Qed.

Lemma rescale_value_peak (M : N) (v : byte) :
  0 < M -> rescale_value (multiplier M) M = Some v -> v = xff \/ v = xfe.
Proof.
  intros HM Hv.
  destruct (rescale_value_total M M HM ltac:(lia)) as (v' & Hv' & Hfloor).
  rewrite Hv in Hv'. injection Hv' as <-.
  destruct (product_bounds M M HM ltac:(lia)) as (H0 & H256 & H254).
  specialize (H254 eq_refl). unfold Binary32.mul in *.
  set (p := Binary32.round _) in *.
  pose proof (Qfloor_resp_le 254 p ltac:(apply Qlt_le_weak, H254)) as Hlo.
  change (Qfloor 254) with 254%Z in Hlo.
  pose proof (Qfloor_le p) as Hf.
  assert (Hhi : (Qfloor p < 256)%Z).
  { rewrite Zlt_Qlt. change (inject_Z 256) with 256%Q. lra. }
  pose proof (Byte.of_to_N v) as Hb.
  assert (Hc : Byte.to_N v = 255 \/ Byte.to_N v = 254) by lia.
  destruct Hc as [E | E]; rewrite E in Hb; [left | right];
    cbn in Hb; congruence.
Qed.

Lemma rescale_value_zero (m : Q) : rescale_value (Some m) 0 = Some x00.
Proof. destruct m as [mn md]. reflexivity. Qed.

Lemma pixel_of_channels (img : Image.t) (x : N) (v : byte) :
  (forall k, k < 3 -> data img !! N.to_nat (x * 3 + k) = Some v) ->
  pixel img x = Some (v, v, v).
Proof.
  intros H. unfold pixel.
  pose proof (H 0 ltac:(lia)) as H0. rewrite N.add_0_r in H0.
  rewrite H0, (H 1), (H 2) by lia. reflexivity.
Qed.

(** The whole of [rescale] on a well-formed image with a positive
    maximum. *)
Lemma rescale_spec (frame : Image.t) (M : N) :
  well_formed frame ->
  maximum frame = Some M ->
  0 < M ->
  (forall i, i < cell_count frame -> cell frame i <= M) ->
  exists out,
    rescale frame = Some out /\
    width out = width frame /\ height out = height frame /\
    length (data out) = length (data frame) /\
    forall x v, x < cell_count frame ->
      rescale_value (multiplier M) (cell frame x) = Some v ->
      pixel out x = Some (v, v, v).
Proof.
  intros Hwf HM Hpos Hle.
  assert (Hval : forall i, i < cell_count frame ->
                   is_Some (rescale_value (multiplier M) (cell frame i))).
  { intros i Hi. destruct (rescale_value_total M (cell frame i) Hpos (Hle i Hi))
      as (v & Hv & _). exists v. exact Hv. }
  destruct (rescale_loop_spec frame Hwf (multiplier M) Hval
              (N.to_nat (cell_count frame)) 0 (data frame) ltac:(lia) eq_refl)
    as (out & Hout & Hlen & Hcells & _).
  exists (Image.make (width frame) (height frame) out).
  unfold rescale. rewrite HM. cbn [mbind option_bind]. rewrite Hout.
  cbn [mbind option_bind width height data].
  split; [reflexivity |]. split; [reflexivity |]. split; [reflexivity |].
  split; [exact Hlen |].
  intros x v Hx Hv. apply pixel_of_channels. cbn [data].
  intros k Hk. apply (Hcells x v k); [lia | exact Hv | exact Hk].
Qed.
End HoughTheorems.

Section HoughClaims.
Import Image Hough.
Local Open Scope N_scope.

Lemma maximum_positive_spec (frame : Image.t) :
  well_formed frame ->
  (exists x, x < cell_count frame /\ cell frame x <> 0) ->
  exists M,
    maximum frame = Some M /\ 0 < M /\
    (forall i, i < cell_count frame -> cell frame i <= M) /\
    (exists i, i < cell_count frame /\ cell frame i = M).
Proof.
  intros Hwf (x & Hx & Hnz).
  destruct (maximum_spec frame Hwf) as (M & HM & Hle & Hatt).
  pose proof (Hle x Hx) as Hxm.
  exists M. split; [exact HM |]. split; [lia |]. split; [exact Hle |].
  destruct Hatt as [-> | Hatt]; [lia | exact Hatt].
Qed.

(** C10. In a well-formed accumulator with at least one non-zero count
    the first loop returns a maximum that is strictly positive, the
    divisor of [255.0f / maximum] is not zero, the multiplier is finite
    and the rescale is defined. The condition is needed: when every
    count is zero the maximum is zero, nothing guards the division, the
    multiplier is not finite and no byte is defined for any cell. *)
Theorem maximum_positive_iff_some_count (frame : Image.t) :
  well_formed frame ->
  exists M,
    maximum frame = Some M /\
    ((exists x, x < cell_count frame /\ cell frame x <> 0) ->
     0 < M /\ ~ (Binary32.of_N M == 0)%Q /\
     is_Some (multiplier M) /\ is_Some (rescale frame)) /\
    ((forall x, x < cell_count frame -> cell frame x = 0) ->
     M = 0 /\ multiplier M = None /\
     (forall count, rescale_value (multiplier M) count = None) /\
     (0 < cell_count frame -> rescale frame = None)).
Proof.
  intros Hwf.
  destruct (maximum_spec frame Hwf) as (M & HM & Hle & Hatt).
  exists M. split; [exact HM |]. split.
  - intros Hex.
    destruct (maximum_positive_spec frame Hwf Hex) as (M' & HM' & Hpos & _).
    rewrite HM in HM'. injection HM' as <-.
    split; [exact Hpos |]. split.
    + pose proof (of_N_pos M Hpos). lra.
    + split; [rewrite (multiplier_some M Hpos); eexists; reflexivity |].
      destruct (rescale_spec frame M Hwf HM Hpos Hle) as (out & Hout & _).
      exists out. exact Hout.
  - intros Hzero.
    assert (HM0 : M = 0).
    { destruct Hatt as [-> | (i & Hi & Hc)]; [reflexivity |].
      rewrite <- Hc. apply Hzero, Hi. }
    subst M. split; [reflexivity |]. split; [exact multiplier_zero |].
    split; [intros count; reflexivity |].
    intros Hcells. unfold rescale. rewrite HM. cbn [mbind option_bind].
    destruct (N.to_nat (cell_count frame)) as [| n] eqn:En; [lia |].
    cbn [rescale_loop]. rewrite (read_cell frame Hwf 0 Hcells).
    reflexivity.
Qed.

(** C6, as the code has it. In a well-formed accumulator with at least
    one non-zero count, [M] is the largest count of all cells and every
    cell of the output holds, in all three channels, the byte
    [floor (fl (count * fl (255 / M)))]: the multiplier [255 / M] and
    its product with the count are each rounded to binary32, and the
    conversion to [unsigned char] drops the fraction. When one cell
    holds the maximum and every other cell holds 0, that one cell
    becomes 255 or 254 and every other cell becomes 0. *)
Theorem rescale_truncated_product (frame : Image.t) :
  well_formed frame ->
  (exists x, x < cell_count frame /\ cell frame x <> 0) ->
  exists M m out,
    maximum frame = Some M /\
    (forall x, x < cell_count frame -> cell frame x <= M) /\
    (exists x, x < cell_count frame /\ cell frame x = M) /\
    multiplier M = Some m /\
    m = Binary32.round (255 / Binary32.of_N M) /\
    rescale frame = Some out /\
    width out = width frame /\ height out = height frame /\
    length (data out) = length (data frame) /\
    (forall x, x < cell_count frame ->
       exists v,
         pixel out x = Some (v, v, v) /\
         Z.of_N (Byte.to_N v) =
         Qfloor (Binary32.round (Binary32.of_N (cell frame x) * m))) /\
    (forall j, j < cell_count frame ->
       (forall x, x < cell_count frame -> x <> j -> cell frame x = 0) ->
       cell frame j = M /\
       (pixel out j = Some (xff, xff, xff) \/ pixel out j = Some (xfe, xfe, xfe)) /\
       forall x, x < cell_count frame -> x <> j ->
         pixel out x = Some (x00, x00, x00)).
Proof.
  intros Hwf Hex.
  destruct (maximum_positive_spec frame Hwf Hex) as (M & HM & Hpos & Hle & Hatt).
  destruct (rescale_spec frame M Hwf HM Hpos Hle)
    as (out & Hout & Hw & Hh & Hlen & Hpix).
  exists M, (Binary32.round (255 / Binary32.of_N M)), out.
  split; [exact HM |]. split; [exact Hle |]. split; [exact Hatt |].
  split; [exact (multiplier_some M Hpos) |]. split; [reflexivity |].
  split; [exact Hout |]. split; [exact Hw |]. split; [exact Hh |].
  split; [exact Hlen |]. split.
  - intros x Hx.
    destruct (rescale_value_total M (cell frame x) Hpos (Hle x Hx)) as (v & Hv & Hf).
    exists v. split; [exact (Hpix x v Hx Hv) | exact Hf].
  - intros j Hj Hothers.
    assert (Hjm : cell frame j = M).
    { destruct Hatt as (i & Hi & Hc).
      destruct (N.eq_dec i j) as [-> | Hne]; [exact Hc |].
      rewrite (Hothers i Hi Hne) in Hc. lia. }
    split; [exact Hjm |]. split.
    + destruct (rescale_value_total M (cell frame j) Hpos (Hle j Hj)) as (v & Hv & _).
      pose proof (Hpix j v Hj Hv) as Hp. rewrite Hjm in Hv.
      destruct (rescale_value_peak M v Hpos Hv) as [-> | ->]; [left | right]; exact Hp.
    + intros x Hx Hne. apply (Hpix x x00 Hx).
      rewrite (Hothers x Hx Hne), (multiplier_some M Hpos).
      apply rescale_value_zero.
Qed.

Lemma maximum_positive_iff_some_count_witness :
  let frame := Image.make 1 1 (x01 :: x00 :: x00 :: nil) in
  well_formed frame /\
  exists M, maximum frame = Some M /\ 0 < M /\ is_Some (multiplier M).
Proof.
  cbv zeta.
  assert (Hwf : well_formed (Image.make 1 1 (x01 :: x00 :: x00 :: nil)))
    by (split; reflexivity).
  split; [exact Hwf |].
  destruct (maximum_positive_iff_some_count _ Hwf) as (M & HM & Hsome & _).
  exists M. split; [exact HM |].
  destruct Hsome as (Hpos & _ & Hmult & _).
  - exists 0. split; [reflexivity |]. vm_compute. discriminate.
  - split; [exact Hpos | exact Hmult].
Defined.

Lemma rescale_truncated_product_witness :
  let frame := Image.make 2 1 (x04 :: x00 :: x00 :: x01 :: x00 :: x00 :: nil) in
  well_formed frame /\
  (exists x, x < cell_count frame /\ cell frame x <> 0) /\
  exists out, rescale frame = Some out /\ length (data out) = 6%nat.
Proof.
  cbv zeta.
  assert (Hwf : well_formed
                  (Image.make 2 1 (x04 :: x00 :: x00 :: x01 :: x00 :: x00 :: nil)))
    by (split; reflexivity).
  assert (Hex : exists x,
             x < cell_count (Image.make 2 1 (x04 :: x00 :: x00 :: x01 :: x00 :: x00 :: nil)) /\
             cell (Image.make 2 1 (x04 :: x00 :: x00 :: x01 :: x00 :: x00 :: nil)) x <> 0).
  { exists 0. split; [reflexivity |]. vm_compute. discriminate. }
  split; [exact Hwf |]. split; [exact Hex |].
  destruct (rescale_truncated_product _ Hwf Hex)
    as (M & m & out & _ & _ & _ & _ & _ & Hout & _ & _ & Hlen & _).
  exists out. split; [exact Hout | exact Hlen].
Defined.

(** C6 as stated fails twice. With the counts 4 and 1 the second cell
    becomes 63, the floor of 63.75, where rounding gives 64. With the
    single count 7 the product [7 * fl (255 / 7)] rounds to the
    binary32 number just below 255, and the cell becomes 254. *)
Lemma rescale_is_not_rounding :
  let frame := Image.make 2 1 (x04 :: x00 :: x00 :: x01 :: x00 :: x00 :: nil) in
  let peak := Image.make 1 1 (x07 :: x00 :: x00 :: nil) in
  well_formed frame /\
  rescale frame =
    Some (Image.make 2 1 (xff :: xff :: xff :: x3f :: x3f :: x3f :: nil)) /\
  Byte.to_N x3f = 63 /\
  spec_round_value 1 4 = 64%Z /\
  well_formed peak /\
  rescale peak = Some (Image.make 1 1 (xfe :: xfe :: xfe :: nil)) /\
  Byte.to_N xfe = 254 /\
  spec_round_value 7 7 = 255%Z.
Proof.
  cbv zeta. repeat split; vm_compute; reflexivity.
Qed.
End HoughClaims.


(** * Properties of [FitImage] *)

Section FitProperties.
Import Float32 Fit.
Local Open Scope Q_scope.

(** The conversion of an [unsigned int] to [float] keeps the value to
    within one rounding. *)
Lemma of_N_bounds (n : N) :
  exists f, Float32.of_N n = Finite f /\
    0 <= f /\ inject_Z (Z.of_N n) * (1 - eps) <= f <= inject_Z (Z.of_N n) * (1 + eps).
Proof.
  exists (Binary32.round (inject_Z (Z.of_N n))). split; [reflexivity |].
  assert (H0 : 0 <= inject_Z (Z.of_N n)).
  { change 0 with (inject_Z 0). rewrite <- Zle_Qle. lia. }
  destruct (round_bounds _ H0) as (Hr & Hl & Hu). tauto.
Qed.

Lemma div_finite (a b : Q) :
  0 <= a -> 0 < b ->
  exists q, Float32.div (Finite a) (Finite b) = Finite q /\
    0 <= q /\ q * b <= a * (1 + eps) /\ a * (1 - eps) <= q * b.
Proof.
  intros Ha Hb. unfold Float32.div.
  destruct (Qeq_bool b 0) eqn:E; [apply Qeq_bool_iff in E; lra |].
  exists (Binary32.round (a / b)). split; [reflexivity |].
  assert (Hq : 0 <= a / b) by (apply Qle_shift_div_l; lra).
  destruct (round_bounds _ Hq) as (Hr & Hl & Hu).
  assert (Hid : a / b * b == a) by (field; lra).
  unfold eps in *. split; [exact Hr |]. split; nra.
Qed.

Lemma mul_finite (a b : Q) :
  0 <= a -> 0 <= b ->
  exists p, Float32.mul (Finite a) (Finite b) = Finite p /\
    0 <= p /\ a * b * (1 - eps) <= p <= a * b * (1 + eps).
Proof.
  intros Ha Hb. exists (Binary32.round (a * b)). split; [reflexivity |].
  apply round_bounds. apply Qmult_le_0_compat; assumption.
Qed.

Lemma max_finite (a b : Q) :
  exists m, Float32.max (Finite a) (Finite b) = Finite m /\
    a <= m /\ b <= m /\ ((m = a /\ b <= a) \/ (m = b /\ a < b)).
Proof.
  unfold Float32.max, Float32.lt.
  destruct (Qle_bool b a) eqn:E; cbn [negb].
  - apply Qle_bool_iff in E. exists a. split; [reflexivity |].
    split; [lra |]. split; [lra |]. left. split; [reflexivity | lra].
  - assert (Hlt : a < b).
    { apply Qnot_le_lt. intros H. apply Qle_bool_iff in H. congruence. }
    exists b. split; [reflexivity |]. split; [lra |]. split; [lra |].
    right. split; [reflexivity | exact Hlt].
Qed.

Lemma to_unsigned_floor (p : Q) (bound : Z) :
  0 <= p -> p < inject_Z bound + 1 -> (bound < 2 ^ 32)%Z ->
  exists w, to_unsigned (Finite p) = Some w /\
    Z.of_N w = Qfloor p /\ (Z.of_N w <= bound)%Z.
Proof.
  intros H0 Hb Hbound. unfold to_unsigned, Binary32.trunc.
  assert (E : Qle_bool 0 p = true) by (apply Qle_bool_iff; exact H0).
  rewrite E.
  pose proof (Qfloor_resp_le 0 p H0) as Hlo. change (Qfloor 0) with 0%Z in Hlo.
  assert (Hhi : (Qfloor p <= bound)%Z).
  { apply Z.lt_succ_r. rewrite Zlt_Qlt. pose proof (Qfloor_le p) as Hf.
    unfold Z.succ. rewrite inject_Z_plus. change (inject_Z 1) with 1. lra. }
  replace ((0 <=? Qfloor p)%Z && (Qfloor p <? 2 ^ 32)%Z)%bool with true
    by (symmetry; apply andb_true_intro; split; [apply Z.leb_le | apply Z.ltb_lt]; lia).
  exists (Z.to_N (Qfloor p)). split; [reflexivity |]. lia.
Qed.
(** One side of the fitted rectangle. [r] is the ratio of the side,
    [m] the larger ratio, [s] the scale and [p] the scaled side, each
    within one rounding of its exact value; [W] is the window side. *)
Section Side.
Variables (W : Z) (fi fW r m s p : Q).
Hypothesis HW : (0 < W <= 2 ^ 20)%Z.
Hypothesis Hfi : 0 <= fi.
Hypothesis HfW : inject_Z W * (1 - eps) <= fW <= inject_Z W * (1 + eps).
Hypothesis Hr0 : 0 <= r.
Hypothesis Hr : r * fW <= fi * (1 + eps) /\ fi * (1 - eps) <= r * fW.
Hypothesis Hm : 0 < m.
Hypothesis Hs0 : 0 <= s.
Hypothesis Hs : s * m <= 1 * (1 + eps) /\ 1 * (1 - eps) <= s * m.
Hypothesis Hp : fi * s * (1 - eps) <= p <= fi * s * (1 + eps).

Lemma window_side_bounds : 0 < inject_Z W <= 1048576.
Proof.
  change 0 with (inject_Z 0). change 1048576 with (inject_Z (2 ^ 20)).
  rewrite <- Zlt_Qlt, <- Zle_Qle. exact HW.
Qed.

Lemma side_upper : r <= m -> p < inject_Z W + 1.
Proof.
  intros Hrm. pose proof window_side_bounds as HWq.
  destruct HfW as [HfWl HfWu]. destruct Hr as [_ Hrl].
  destruct Hs as [Hsu _]. destruct Hp as [_ Hpu].
  unfold eps in *. set (Wq := inject_Z W) in *.
  assert (HfW0 : 0 <= fW) by nra.
  assert (A1 : fi * (1 - (1 # 8388608)) * s <= r * fW * s) by nra.
  assert (A2 : r * fW * s <= m * fW * s).
  { assert (0 <= fW * s) by (apply Qmult_le_0_compat; assumption). nra. }
  assert (A3 : m * fW * s <= (1 + (1 # 8388608)) * fW) by nra.
  assert (A4 : (1 + (1 # 8388608)) * fW
               <= (1 + (1 # 8388608)) * (1 + (1 # 8388608)) * Wq) by nra.
  assert (A5 : p * (1 - (1 # 8388608))
               <= (1 + (1 # 8388608)) * (1 + (1 # 8388608)) * (1 + (1 # 8388608)) * Wq)
    by nra.
  assert (A6 : (1 + (1 # 8388608)) * (1 + (1 # 8388608)) * (1 + (1 # 8388608)) * Wq
               < (Wq + 1) * (1 - (1 # 8388608))) by lra.
  nra.
Qed.

Lemma side_lower : m = r -> inject_Z W - 1 <= p.
Proof.
  intros ->. pose proof window_side_bounds as HWq.
  destruct HfW as [HfWl HfWu]. destruct Hr as [Hru _].
  destruct Hs as [_ Hsl]. destruct Hp as [Hpl _].
  unfold eps in *. set (Wq := inject_Z W) in *.
  assert (HfW0 : 0 <= fW) by nra.
  assert (B1 : r * fW * s <= fi * (1 + (1 # 8388608)) * s) by nra.
  assert (B2 : (1 - (1 # 8388608)) * fW <= r * fW * s) by nra.
  assert (B3 : (1 - (1 # 8388608)) * (1 - (1 # 8388608)) * Wq
               <= (1 - (1 # 8388608)) * fW) by nra.
  assert (B4 : (1 - (1 # 8388608)) * (1 - (1 # 8388608)) * (1 - (1 # 8388608)) * Wq
               <= p * (1 + (1 # 8388608))) by nra.
  assert (B5 : (Wq - 1) * (1 + (1 # 8388608))
               <= (1 - (1 # 8388608)) * (1 - (1 # 8388608)) * (1 - (1 # 8388608)) * Wq)
    by lra.
  nra.
Qed.
End Side.
Lemma int_ok_true (z : Z) : (- 2147483648 <= z < 2147483648)%Z -> int_ok z = true.
Proof.
  intros H. unfold int_ok. change (2 ^ 31)%Z with 2147483648%Z.
  apply andb_true_intro. split; [apply Z.leb_le | apply Z.ltb_lt]; lia.
Qed.

Lemma to_int_small (n : N) : (Z.of_N n < 2147483648)%Z -> to_int n = Z.of_N n.
Proof.
  intros H. unfold to_int. change (2 ^ 31)%Z with 2147483648%Z.
  destruct (Z.ltb_spec (Z.of_N n) 2147483648); [reflexivity | lia].
Qed.

Lemma centre_small (W w : N) :
  (Z.of_N W <= 2 ^ 20)%Z -> (w <= W)%N ->
  exists x, centre W w = Some x /\ (2 * x + w <= W <= 2 * x + w + 1)%N.
Proof.
  intros HW Hw. unfold centre.
  change (2 ^ 20)%Z with 1048576%Z in HW.
  rewrite !to_int_small by lia.
  rewrite Z.abs_eq by lia. rewrite !int_ok_true by lia.
  eexists. split; [reflexivity |].
  rewrite Z.quot_div_nonneg by lia.
  pose proof (Z.div_mod (Z.of_N W - Z.of_N w) 2 ltac:(lia)) as Hdm.
  pose proof (Z.mod_pos_bound (Z.of_N W - Z.of_N w) 2 ltac:(lia)) as Hmod.
  assert (0 <= (Z.of_N W - Z.of_N w) / 2)%Z by (apply Z.div_pos; lia).
  lia.
Qed.

(** The whole computation, for a window of at most [2^20] pixels a side
    and an image with at least one non-zero side. *)
Lemma FitImage_spec (windowWidth windowHeight : N) (image : Image.t) :
  (0 < windowWidth <= 2 ^ 20)%N -> (0 < windowHeight <= 2 ^ 20)%N ->
  (0 < Image.width image \/ 0 < Image.height image)%N ->
  exists x y width height,
    FitImage windowWidth windowHeight image = Some (x, y, width, height) /\
    (width <= windowWidth /\ height <= windowHeight)%N /\
    (2 * x + width <= windowWidth <= 2 * x + width + 1)%N /\
    (2 * y + height <= windowHeight <= 2 * y + height + 1)%N /\
    (windowWidth - 1 <= width \/ windowHeight - 1 <= height)%N.
Proof.
  intros HW HH Himg.
  change (2 ^ 20)%N with 1048576%N in HW, HH.
  assert (HWz : (0 < Z.of_N windowWidth <= 2 ^ 20)%Z)
    by (change (2 ^ 20)%Z with 1048576%Z; lia).
  assert (HHz : (0 < Z.of_N windowHeight <= 2 ^ 20)%Z)
    by (change (2 ^ 20)%Z with 1048576%Z; lia).
  destruct (of_N_bounds (Image.width image)) as (fi & Efi & Hfi0 & Hfi).
  destruct (of_N_bounds (Image.height image)) as (fj & Efj & Hfj0 & Hfj).
  destruct (of_N_bounds windowWidth) as (fW & EfW & HfW0 & HfW).
  destruct (of_N_bounds windowHeight) as (fH & EfH & HfH0 & HfH).
  pose proof (window_side_bounds _ HWz) as HWq.
  pose proof (window_side_bounds _ HHz) as HHq.
  assert (HfWp : 0 < fW) by (unfold eps in *; nra).
  assert (HfHp : 0 < fH) by (unfold eps in *; nra).
  destruct (div_finite fi fW Hfi0 HfWp) as (hR & EhR & HhR0 & HhRu & HhRl).
  destruct (div_finite fj fH Hfj0 HfHp) as (vR & EvR & HvR0 & HvRu & HvRl).
  destruct (max_finite hR vR) as (m & Em & Hmh & Hmv & Hmc).
  assert (Hm : 0 < m).
  { destruct Himg as [Hi | Hj].
    - assert (0 < inject_Z (Z.of_N (Image.width image)))
        by (change 0 with (inject_Z 0); rewrite <- Zlt_Qlt; lia).
      assert (0 < hR); [| lra]. unfold eps in *.
      assert (0 < hR * fW) by nra. nra.
    - assert (0 < inject_Z (Z.of_N (Image.height image)))
        by (change 0 with (inject_Z 0); rewrite <- Zlt_Qlt; lia).
      assert (0 < vR); [| lra]. unfold eps in *.
      assert (0 < vR * fH) by nra. nra. }
  destruct (div_finite 1 m ltac:(lra) Hm) as (sc & Esc & Hsc0 & Hscu & Hscl).
  destruct (mul_finite fi sc Hfi0 Hsc0) as (pw & Epw & Hpw0 & Hpw).
  destruct (mul_finite fj sc Hfj0 Hsc0) as (ph & Eph & Hph0 & Hph).
  pose proof (side_upper _ fi fW hR m sc pw HWz HfW (conj HhRu HhRl) Hsc0
                (conj Hscu Hscl) Hpw Hmh) as Hwu.
  pose proof (side_upper _ fj fH vR m sc ph HHz HfH (conj HvRu HvRl) Hsc0
                (conj Hscu Hscl) Hph Hmv) as Hhu.
  destruct (to_unsigned_floor pw (Z.of_N windowWidth) Hpw0 Hwu
              ltac:(change (2 ^ 32)%Z with 4294967296%Z; lia))
    as (w & Ew & Hwf & Hwle).
  destruct (to_unsigned_floor ph (Z.of_N windowHeight) Hph0 Hhu
              ltac:(change (2 ^ 32)%Z with 4294967296%Z; lia))
    as (h & Eh & Hhf & Hhle).
  destruct (centre_small windowWidth w ltac:(lia) ltac:(lia)) as (x & Ex & Hx).
  destruct (centre_small windowHeight h ltac:(lia) ltac:(lia)) as (y & Ey & Hy).
  exists x, y, w, h. split.
  { unfold FitImage. rewrite Efi, Efj, EfW, EfH, EhR, EvR, Em, Esc, Epw, Eph.
    rewrite Ew. cbn [mbind option_bind]. rewrite Eh. cbn [mbind option_bind].
    rewrite Ex. cbn [mbind option_bind]. rewrite Ey. reflexivity. }
  split; [lia |]. split; [exact Hx |]. split; [exact Hy |].
  destruct Hmc as [[-> _] | [-> _]]; [left | right].
  - pose proof (side_lower _ fi fW hR hR sc pw HWz HfW (conj HhRu HhRl) Hm Hsc0
                  (conj Hscu Hscl) Hpw eq_refl) as Hl.
    pose proof (Qfloor_resp_le _ _ Hl) as Hfl.
    assert (E : (inject_Z (Z.of_N windowWidth) - 1 == inject_Z (Z.of_N windowWidth - 1))%Q).
    { unfold Zminus. rewrite inject_Z_plus. reflexivity. }
    rewrite E, Qfloor_Z in Hfl. lia.
  - pose proof (side_lower _ fj fH vR vR sc ph HHz HfH (conj HvRu HvRl) Hm Hsc0
                  (conj Hscu Hscl) Hph eq_refl) as Hl.
    pose proof (Qfloor_resp_le _ _ Hl) as Hfl.
    assert (E : (inject_Z (Z.of_N windowHeight) - 1 == inject_Z (Z.of_N windowHeight - 1))%Q).
    { unfold Zminus. rewrite inject_Z_plus. reflexivity. }
    rewrite E, Qfloor_Z in Hfl. lia.
Qed.
(** X1. In a window of at most [2^20] pixels a side, an image with a
    non-zero side is fitted into a rectangle that lies inside the window:
    it is no wider and no higher than the window, and it is centred, the
    margins of a direction differing by at most one pixel. *)
Theorem FitImage_inside_window (windowWidth windowHeight : N) (image : Image.t) :
  (0 < windowWidth <= 2 ^ 20)%N -> (0 < windowHeight <= 2 ^ 20)%N ->
  (0 < Image.width image \/ 0 < Image.height image)%N ->
  exists x y width height,
    FitImage windowWidth windowHeight image = Some (x, y, width, height) /\
    (x + width <= windowWidth /\ y + height <= windowHeight)%N /\
    (2 * x + width <= windowWidth <= 2 * x + width + 1)%N /\
    (2 * y + height <= windowHeight <= 2 * y + height + 1)%N.
Proof.
  intros HW HH Himg.
  destruct (FitImage_spec windowWidth windowHeight image HW HH Himg)
    as (x & y & w & h & E & _ & Hx & Hy & _).
  exists x, y, w, h. split; [exact E |]. split; [lia |]. split; assumption.
Qed.

(** X2. Under the same conditions the fitted rectangle fills the window
    in one direction, up to one pixel that the rounding of the scale can
    lose: its width is the window's width or one less, or its height is
    the window's height or one less. *)
Theorem FitImage_fills_one_direction (windowWidth windowHeight : N) (image : Image.t) :
  (0 < windowWidth <= 2 ^ 20)%N -> (0 < windowHeight <= 2 ^ 20)%N ->
  (0 < Image.width image \/ 0 < Image.height image)%N ->
  exists x y width height,
    FitImage windowWidth windowHeight image = Some (x, y, width, height) /\
    ((windowWidth - 1 <= width <= windowWidth)%N \/
     (windowHeight - 1 <= height <= windowHeight)%N).
Proof.
  intros HW HH Himg.
  destruct (FitImage_spec windowWidth windowHeight image HW HH Himg)
    as (x & y & w & h & E & [Hw Hh] & _ & _ & Hfill).
  exists x, y, w, h. split; [exact E |]. destruct Hfill; [left | right]; lia.
Qed.

Lemma round_zero (x : Q) : x == 0 -> Binary32.round x = 0.
Proof.
  intros H. unfold Binary32.round.
  assert (E : Qnum x = 0%Z) by (unfold Qeq in H; cbn in H; lia).
  rewrite E. reflexivity.
Qed.

Lemma round_positive (x : Q) : 0 < x -> 0 < Binary32.round x.
Proof.
  intros H. destruct (round_bounds x ltac:(lra)) as (_ & Hl & _).
  unfold eps in Hl. nra.
Qed.

Lemma of_N_zero : Float32.of_N 0 = Finite 0.
Proof. reflexivity. Qed.

Lemma of_N_positive (n : N) :
  (0 < n)%N -> exists f, Float32.of_N n = Finite f /\ 0 < f.
Proof.
  intros H. eexists. split; [reflexivity |]. apply round_positive.
  change 0 with (inject_Z 0). rewrite <- Zlt_Qlt. lia.
Qed.

(** X3. An image of width 0 and height 0 has no fitted rectangle, in any
    window: both ratios are zero (or NaN), the scale is an infinity or a
    NaN, and the product with the zero side is a NaN, whose conversion to
    [unsigned int] is undefined. *)
Theorem FitImage_empty_image_undefined (windowWidth windowHeight : N) (image : Image.t) :
  Image.width image = 0%N -> Image.height image = 0%N ->
  FitImage windowWidth windowHeight image = None.
Proof.
  intros Hw Hh. unfold FitImage. rewrite Hw, Hh, of_N_zero.
  assert (Hdiv : forall n : N,
             Float32.div (Finite 0) (Float32.of_N n) = Finite 0 \/
             Float32.div (Finite 0) (Float32.of_N n) = NaN).
  { intros n. destruct (N.eq_dec n 0%N) as [-> | Hn].
    - right. reflexivity.
    - left. destruct (of_N_positive n ltac:(lia)) as (f & -> & Hf).
      unfold Float32.div. destruct (Qeq_bool f 0) eqn:E.
      + apply Qeq_bool_iff in E. lra.
      + reflexivity. }
  destruct (Hdiv windowWidth) as [-> | ->]; destruct (Hdiv windowHeight) as [-> | ->];
    reflexivity.
Qed.

(** X4. A window of width 0 is no error for an image with a non-zero
    width: the horizontal ratio is an infinity, the scale is zero and the
    fitted rectangle is the empty one, centred vertically. *)
Theorem FitImage_zero_width_window (windowHeight : N) (image : Image.t) :
  (0 < Image.width image)%N -> (windowHeight < 2 ^ 31)%N ->
  FitImage 0 windowHeight image = Some (0, windowHeight / 2, 0, 0)%N.
Proof.
  intros Hw HH. change (2 ^ 31)%N with 2147483648%N in HH.
  unfold FitImage. rewrite of_N_zero.
  destruct (of_N_positive _ Hw) as (fi & -> & Hfi).
  assert (Eh : Float32.div (Finite fi) (Finite 0) = Infinity).
  { unfold Float32.div. change (Qeq_bool 0 0) with true.
    destruct (Qeq_bool fi 0) eqn:E; [apply Qeq_bool_iff in E; lra | reflexivity]. }
  rewrite Eh.
  assert (Em : forall v, Float32.max Infinity v = Infinity) by (intros []; reflexivity).
  rewrite Em. cbn [Float32.div].
  assert (Ez : forall a : Q, Float32.mul (Finite a) (Finite 0) = Finite 0).
  { intros a. unfold Float32.mul. f_equal. apply round_zero. ring. }
  unfold Float32.of_N. rewrite !Ez.
  assert (Eu : to_unsigned (Finite 0) = Some 0%N) by reflexivity.
  rewrite Eu. cbn [mbind option_bind].
  assert (Ec0 : centre 0 0 = Some 0%N) by reflexivity.
  rewrite Ec0. cbn [mbind option_bind].
  assert (Ec : centre windowHeight 0 = Some (windowHeight / 2)%N).
  { unfold centre. rewrite !to_int_small by lia.
    rewrite Z.abs_eq by lia. rewrite !int_ok_true by lia.
    f_equal. rewrite Z.quot_div_nonneg by lia.
    change (Z.of_N 0) with 0%Z. rewrite Z.sub_0_r.
    change 2%Z with (Z.of_N 2). rewrite <- N2Z.inj_div. apply N2Z.id. }
  rewrite Ec. reflexivity.
Qed.

Lemma FitImage_inside_window_witness :
  let image := Image.make 1 1 (x00 :: x00 :: x00 :: nil) in
  (0 < 7 <= 2 ^ 20)%N /\ (0 < 7 <= 2 ^ 20)%N /\
  (0 < Image.width image \/ 0 < Image.height image)%N /\
  exists x y width height,
    FitImage 7 7 image = Some (x, y, width, height) /\
    (x + width <= 7 /\ y + height <= 7)%N.
Proof.
  cbv zeta.
  assert (H7 : (0 < 7 <= 2 ^ 20)%N) by (change (2 ^ 20)%N with 1048576%N; lia).
  assert (Hi : (0 < Image.width (Image.make 1 1 (x00 :: x00 :: x00 :: nil)) \/
               0 < Image.height (Image.make 1 1 (x00 :: x00 :: x00 :: nil)))%N)
    by (left; reflexivity).
  split; [exact H7 |]. split; [exact H7 |]. split; [exact Hi |].
  destruct (FitImage_inside_window 7 7 _ H7 H7 Hi) as (x & y & w & h & E & Hin & _).
  exists x, y, w, h. split; [exact E | exact Hin].
Defined.

Lemma FitImage_fills_one_direction_witness :
  let image := Image.make 640 480 nil in
  (0 < 800 <= 2 ^ 20)%N /\ (0 < 600 <= 2 ^ 20)%N /\
  (0 < Image.width image \/ 0 < Image.height image)%N /\
  exists x y width height,
    FitImage 800 600 image = Some (x, y, width, height) /\
    ((800 - 1 <= width <= 800)%N \/ (600 - 1 <= height <= 600)%N).
Proof.
  cbv zeta.
  assert (H8 : (0 < 800 <= 2 ^ 20)%N) by (change (2 ^ 20)%N with 1048576%N; lia).
  assert (H6 : (0 < 600 <= 2 ^ 20)%N) by (change (2 ^ 20)%N with 1048576%N; lia).
  assert (Hi : (0 < Image.width (Image.make 640 480 nil) \/
               0 < Image.height (Image.make 640 480 nil))%N)
    by (left; reflexivity).
  split; [exact H8 |]. split; [exact H6 |]. split; [exact Hi |].
  exact (FitImage_fills_one_direction 800 600 _ H8 H6 Hi).
Defined.

Lemma FitImage_empty_image_undefined_witness :
  Image.width (Image.make 0 0 nil) = 0%N /\ Image.height (Image.make 0 0 nil) = 0%N /\
  FitImage 800 600 (Image.make 0 0 nil) = None.
Proof.
  split; [reflexivity |]. split; [reflexivity |].
  apply FitImage_empty_image_undefined; reflexivity.
Defined.

Lemma FitImage_zero_width_window_witness :
  (0 < Image.width (Image.make 640 480 nil))%N /\ (600 < 2 ^ 31)%N /\
  FitImage 0 600 (Image.make 640 480 nil) = Some (0, 300, 0, 0)%N.
Proof.
  split; [reflexivity |]. split; [reflexivity |].
  apply (FitImage_zero_width_window 600 (Image.make 640 480 nil)); reflexivity.
Defined.

(** The loss of one pixel happens: a 1 by 1 image in a 7 by 7 window is
    fitted to 6 by 6, since [1 * fl (1 / fl (1 / 7))] is just below 7. The
    frame of the main loop, 640 by 480 in 800 by 600, is fitted exactly. *)
Example FitImage_examples :
  FitImage 7 7 (Image.make 1 1 nil) = Some (0, 0, 6, 6)%N /\
  FitImage 800 600 (Image.make 640 480 nil) = Some (0, 0, 800, 600)%N /\
  FitImage 800 600 (Image.make 1280 720 nil) = Some (0, 75, 800, 450)%N.
Proof. repeat split; vm_compute; reflexivity. Qed.
End FitProperties.

(** * Properties of [OnKey] *)

Section KeyProperties.
Import Keys.
Local Open Scope Z_scope.

Lemma run_cons (e : Event) (events : list Event) (s : State) :
  run (e :: events) s =
  run events (let '(key, scancode, action, mode) := e in OnKey key scancode action mode s).
Proof. destruct e as [[[k sc] a] m]. reflexivity. Qed.

(** X5. After any sequence of key events each flag is its value before,
    flipped once for every press of its own key: only presses count
    (releases and repeats change nothing), a key flips no flag but its
    own, and every other key is ignored. The close request is set by a
    press of Escape and is never taken back. *)
Theorem toggles_follow_press_parity (events : list Event) :
  forall s : State,
    let s' := run events s in
    drawHoughTransform s' =
      xorb (drawHoughTransform s) (Nat.odd (presses GLFW_KEY_0 events)) /\
    drawLines s' = xorb (drawLines s) (Nat.odd (presses GLFW_KEY_1 events)) /\
    drawLineClusters s' =
      xorb (drawLineClusters s) (Nat.odd (presses GLFW_KEY_2 events)) /\
    drawPossiblePuzzleLineClusters s' =
      xorb (drawPossiblePuzzleLineClusters s) (Nat.odd (presses GLFW_KEY_3 events)) /\
    shouldClose s' =
      orb (shouldClose s) (negb (Nat.eqb (presses GLFW_KEY_ESCAPE events) 0)).
Proof.
  induction events as [| e events IH]; intros s.
  - cbn. rewrite !xorb_false_r, orb_false_r. repeat split; reflexivity.
  - cbv zeta. rewrite run_cons. destruct e as [[[k sc] a] m].
    specialize (IH (OnKey k sc a m s)). cbv zeta in IH.
    destruct IH as (H0 & H1 & H2 & H3 & Hc).
    rewrite H0, H1, H2, H3, Hc. clear H0 H1 H2 H3 Hc.
    cbn [presses]. unfold OnKey.
    destruct (Z.eqb_spec a GLFW_PRESS) as [-> | Ha].
    + change (GLFW_PRESS =? GLFW_PRESS) with true. cbn [negb].
      rewrite !andb_true_r.
      destruct (Z.eqb_spec k GLFW_KEY_ESCAPE) as [-> | He];
        [cbn; rewrite orb_true_r; repeat split; reflexivity |].
      destruct (Z.eqb_spec k GLFW_KEY_0) as [-> | H0];
        [cbn - [Nat.odd]; rewrite Nat.odd_succ, <- Nat.negb_odd;
         repeat split; try reflexivity;
         destruct (drawHoughTransform s), (Nat.odd (presses GLFW_KEY_0 events));
         reflexivity |].
      destruct (Z.eqb_spec k GLFW_KEY_1) as [-> | H1];
        [cbn - [Nat.odd]; rewrite Nat.odd_succ, <- Nat.negb_odd;
         repeat split; try reflexivity;
         destruct (drawLines s), (Nat.odd (presses GLFW_KEY_1 events));
         reflexivity |].
      destruct (Z.eqb_spec k GLFW_KEY_2) as [-> | H2];
        [cbn - [Nat.odd]; rewrite Nat.odd_succ, <- Nat.negb_odd;
         repeat split; try reflexivity;
         destruct (drawLineClusters s), (Nat.odd (presses GLFW_KEY_2 events));
         reflexivity |].
      destruct (Z.eqb_spec k GLFW_KEY_3) as [-> | H3];
        [cbn - [Nat.odd]; rewrite Nat.odd_succ, <- Nat.negb_odd;
         repeat split; try reflexivity;
         destruct (drawPossiblePuzzleLineClusters s),
                  (Nat.odd (presses GLFW_KEY_3 events));
         reflexivity |].
      cbn. repeat split; reflexivity.
    + destruct (a =? GLFW_PRESS) eqn:E; [apply Z.eqb_eq in E; contradiction |].
      cbn [negb]. rewrite !andb_false_r. cbn. repeat split; reflexivity.
Qed.
End KeyProperties.

(** * Further properties of [Painter] *)

Section PainterFurther.
Import Geometry Painter.
Local Open Scope R_scope.

Lemma unit_interval (v W : R) : 0 < W -> 0 <= v <= W -> 0 <= v / W <= 1.
Proof.
  intros HW [Hv0 HvW]. split.
  - apply (Rmult_le_reg_r W); [exact HW |].
    replace (v / W * W) with v by (field; lra). lra.
  - apply (Rmult_le_reg_r W); [exact HW |].
    replace (v / W * W) with v by (field; lra). lra.
Qed.

(** X6. [DrawImage] of a non-empty image into a rectangle that lies in
    a window of positive size issues one textured quad whose four
    corners are in the range [-1, 1] of normalised device coordinates,
    with left <= right and bottom <= top, and whose extent is the
    rectangle's, scaled by 2 / window size. *)
Theorem DrawImage_rectangle_in_ndc (p : t) (x y width height : R) (image : Image.t) :
  0 < windowWidth p -> 0 < windowHeight p ->
  Image.data image <> nil ->
  0 <= x -> 0 <= width -> x + width <= windowWidth p ->
  0 <= y -> 0 <= height -> y + height <= windowHeight p ->
  exists left top right bottom,
    DrawImage p x y width height image =
    mkDraw GL_TRIANGLES 6
      (Some left :: Some top :: Some 0 :: Some 0 :: Some 0 ::
       Some right :: Some top :: Some 0 :: Some 1 :: Some 0 ::
       Some right :: Some bottom :: Some 0 :: Some 1 :: Some 1 ::
       Some left :: Some bottom :: Some 0 :: Some 0 :: Some 1 :: nil)
      (0 :: 1 :: 2 :: 2 :: 3 :: 0 :: nil)%nat (Some image) Screen :: nil /\
    in_ndc left /\ in_ndc right /\ in_ndc top /\ in_ndc bottom /\
    left <= right /\ bottom <= top /\
    right - left = 2 * width / windowWidth p /\
    top - bottom = 2 * height / windowHeight p.
Proof.
  intros HW HH Hne Hx Hw Hxw Hy Hh Hyh.
  assert (HW0 : windowWidth p <> 0) by lra.
  assert (HH0 : windowHeight p <> 0) by lra.
  exists (x / windowWidth p * 2 - 1), (1 - y / windowHeight p * 2),
         ((x / windowWidth p + width / windowWidth p) * 2 - 1),
         (1 - (y / windowHeight p + height / windowHeight p) * 2).
  split.
  { unfold DrawImage. destruct (Image.data image) as [| b d]; [contradiction |].
    cbn [is_empty]. cbv zeta.
    rewrite !(F_div_lit _ _ HW0), !(F_div_lit _ _ HH0).
    reflexivity. }
  pose proof (unit_interval x _ HW ltac:(lra)) as Ix.
  pose proof (unit_interval width _ HW ltac:(lra)) as Iw.
  pose proof (unit_interval (x + width) _ HW ltac:(lra)) as Ixw.
  replace ((x + width) / windowWidth p)
    with (x / windowWidth p + width / windowWidth p) in Ixw by (field; lra).
  pose proof (unit_interval y _ HH ltac:(lra)) as Iy.
  pose proof (unit_interval height _ HH ltac:(lra)) as Ih.
  pose proof (unit_interval (y + height) _ HH ltac:(lra)) as Iyh.
  replace ((y + height) / windowHeight p)
    with (y / windowHeight p + height / windowHeight p) in Iyh by (field; lra).
  unfold in_ndc. repeat split; try lra; field; assumption.
Qed.

(** X7. [DrawLine] between two points of a window of positive size, with
    colour channels of a byte, issues one two-point line whose endpoints
    are in the range [-1, 1] and whose colour components are channel / 255,
    in the range [0, 1], the same at both vertices. *)
Theorem DrawLine_in_ndc (p : t) (x1 y1 x2 y2 : R) (red green blue : N) :
  0 < windowWidth p -> 0 < windowHeight p ->
  0 <= x1 <= windowWidth p -> 0 <= y1 <= windowHeight p ->
  0 <= x2 <= windowWidth p -> 0 <= y2 <= windowHeight p ->
  (red <= 255)%N -> (green <= 255)%N -> (blue <= 255)%N ->
  exists a1 b1 a2 b2 r g b,
    DrawLine p x1 y1 x2 y2 red green blue =
    mkDraw GL_LINES 2
      (Some a1 :: Some b1 :: Some 0 :: Some r :: Some g :: Some b ::
       Some a2 :: Some b2 :: Some 0 :: Some r :: Some g :: Some b :: nil)
      (0 :: 1 :: nil)%nat None Screen :: nil /\
    in_ndc a1 /\ in_ndc b1 /\ in_ndc a2 /\ in_ndc b2 /\
    r = IZR (Z.of_N red) / 255 /\ g = IZR (Z.of_N green) / 255 /\
    b = IZR (Z.of_N blue) / 255 /\
    0 <= r <= 1 /\ 0 <= g <= 1 /\ 0 <= b <= 1.
Proof.
  intros HW HH Hx1 Hy1 Hx2 Hy2 Hr Hg Hb.
  assert (HW0 : windowWidth p <> 0) by lra.
  assert (HH0 : windowHeight p <> 0) by lra.
  assert (H255 : (255 : R) <> 0) by lra.
  exists (x1 / windowWidth p * 2 - 1), (1 - y1 / windowHeight p * 2),
         (x2 / windowWidth p * 2 - 1), (1 - y2 / windowHeight p * 2),
         (IZR (Z.of_N red) / 255), (IZR (Z.of_N green) / 255),
         (IZR (Z.of_N blue) / 255).
  split.
  { unfold DrawLine. cbv zeta.
    rewrite !(F_div_lit _ _ HW0), !(F_div_lit _ _ HH0), !(F_div_lit _ _ H255).
    reflexivity. }
  pose proof (unit_interval x1 _ HW Hx1). pose proof (unit_interval y1 _ HH Hy1).
  pose proof (unit_interval x2 _ HW Hx2). pose proof (unit_interval y2 _ HH Hy2).
  assert (chan : forall c : N, (c <= 255)%N -> 0 <= IZR (Z.of_N c) / 255 <= 1).
  { intros c Hc. apply unit_interval; [lra |]. split.
    - apply IZR_le. lia.
    - apply IZR_le. lia. }
  pose proof (chan red Hr). pose proof (chan green Hg). pose proof (chan blue Hb).
  unfold in_ndc. repeat split; try lra; reflexivity.
Qed.

Lemma extract_vertices_length (srcPoints : list Point) (sx sy : R) :
  length (extract_vertices srcPoints sx sy) = 80%nat.
Proof. reflexivity. Qed.

(** X9. No draw reads outside its vertex buffer: every index that
    [DrawImage], [DrawLine] and [ExtractImage] hand to [glDrawElements]
    points at a whole vertex of the buffer built in the same call (4
    vertices of 5 floats, 2 of 6 and 16 of 5), and the number of indices
    drawn is the length of the index array. *)
Theorem draws_are_index_safe :
  (forall p x y width height image d,
      In d (DrawImage p x y width height image) -> index_safe 5 d) /\
  (forall p x1 y1 x2 y2 red green blue d,
      In d (DrawLine p x1 y1 x2 y2 red green blue) -> index_safe 6 d) /\
  (forall glReadPixels srcImage srcPoints sx sy dstImage w h d,
      In d (snd (ExtractImage glReadPixels srcImage srcPoints sx sy dstImage w h)) ->
      index_safe 5 d).
Proof.
  split; [| split].
  - intros p x y width height image d Hd. unfold DrawImage in Hd.
    destruct (is_empty (Image.data image)); [contradiction |].
    destruct Hd as [<- | []]. split; [reflexivity |].
    cbn [indices vertices length]. repeat constructor.
  - intros p x1 y1 x2 y2 red green blue d Hd. unfold DrawLine in Hd.
    destruct Hd as [<- | []]. split; [reflexivity |].
    cbn [indices vertices length]. repeat constructor.
  - intros glReadPixels srcImage srcPoints sx sy dstImage w h d Hd.
    unfold ExtractImage in Hd.
    destruct (is_empty (Image.data srcImage)); [contradiction |].
    destruct (negb (length srcPoints =? 16)%nat); [contradiction |].
    destruct Hd as [<- | []]. split; [reflexivity |].
    cbn [indices vertices]. rewrite extract_vertices_length.
    unfold extract_indices. repeat constructor.
Qed.

Lemma resize_length (n : nat) (d : list byte) : length (resize n d) = n.
Proof.
  unfold resize. rewrite length_app, length_firstn, repeat_length. lia.
Qed.

(** X10. A call with a non-empty source image and 16 points leaves the
    destination with the requested width and height and the buffer read
    back from the GPU; when the requested size fits [unsigned int]
    arithmetic and the read-back keeps the length of the buffer it is
    given, that buffer holds exactly 3 bytes per pixel. *)
Theorem ExtractImage_destination
    (glReadPixels : Draw -> list byte -> list byte)
    (srcImage : Image.t) (srcPoints : list Point) (sx sy : R)
    (dstImage : Image.t) (w h : N) :
  Image.data srcImage <> nil ->
  length srcPoints = 16%nat ->
  (forall d b, length (glReadPixels d b) = length b) ->
  (w * h * 3 < 2 ^ 32)%N ->
  let dst := fst (ExtractImage glReadPixels srcImage srcPoints sx sy dstImage w h) in
  Image.width dst = w /\ Image.height dst = h /\
  length (Image.data dst) = N.to_nat (w * h * 3) /\
  well_formed dst.
Proof.
  intros Hne Hlen Hgl Hsz. cbv zeta. unfold ExtractImage.
  destruct (Image.data srcImage) as [| b0 d0]; [contradiction |].
  cbn [is_empty]. rewrite Hlen. cbn [Nat.eqb negb fst].
  assert (Hu : u32 (u32 (w * h) * 3) = (w * h * 3)%N).
  { change (2 ^ 32)%N with 4294967296%N in Hsz.
    rewrite (u32_small (w * h)) by (change (2 ^ 32)%N with 4294967296%N; lia).
    apply u32_small. exact Hsz. }
  rewrite Hu.
  cbn [Image.width Image.height Image.data].
  split; [reflexivity |]. split; [reflexivity |].
  rewrite Hgl, resize_length.
  split; [reflexivity |]. split; [| exact Hsz].
  cbn [Image.width Image.height Image.data]. rewrite Hgl, resize_length. lia.
Qed.
(** X11. The 18 triangles of the control mesh cover the destination
    square: every vertex lies in [-1, 1] x [-1, 1], every one of the 16
    vertices is a corner of some triangle, and the signed areas of the
    triangles add up to the area of the square (twice the areas add up
    to 8), whatever the source points are. *)
Theorem ExtractImage_mesh_covers_square
    (glReadPixels : Draw -> list byte -> list byte)
    (srcImage : Image.t) (srcPoints : list Point) (sx sy : R)
    (dstImage : Image.t) (w h : N) :
  Image.data srcImage <> nil ->
  length srcPoints = 16%nat ->
  exists draw,
    snd (ExtractImage glReadPixels srcImage srcPoints sx sy dstImage w h) = draw :: nil /\
    (forall k, (k < 16)%nat ->
       in_ndc (fst (position (vertices draw) k)) /\
       in_ndc (snd (position (vertices draw) k))) /\
    (forall k, (k < 16)%nat -> In k (indices draw)) /\
    length (triangles (indices draw)) = 18%nat /\
    Rsum (map (fun '(a, b, c) =>
                 cross (position (vertices draw) a) (position (vertices draw) b)
                       (position (vertices draw) c))
              (triangles (indices draw))) = 8.
Proof.
  intros Hne Hlen.
  do 16 (destruct srcPoints as [| ? srcPoints]; [discriminate Hlen |]).
  destruct srcPoints as [| ? ?]; [clear Hlen | discriminate Hlen].
  unfold ExtractImage.
  destruct (Image.data srcImage) as [| b0 d0]; [contradiction |].
  cbn [is_empty length Nat.eqb negb snd].
  eexists. split; [reflexivity |]. cbn [vertices indices].
  split; [| split; [| split; [reflexivity |]]].
  - intros k Hk. unfold in_ndc.
    do 16 (destruct k as [| k]; [cbn; lra |]). lia.
  - intros k Hk. unfold extract_indices.
    do 16 (destruct k as [| k]; [cbn; tauto |]). lia.
  - unfold extract_indices, Rsum, cross, position. cbn. lra.
Qed.

(** X12. With the scales [1 / W] and [1 / H] of a positive frame size, as
    the main loop passes them, and source points inside that frame, the
    texture coordinate of every vertex of the mesh is the point divided
    by the frame size and lies in [0, 1] x [0, 1]. *)
Theorem ExtractImage_texcoords_normalised
    (glReadPixels : Draw -> list byte -> list byte)
    (srcImage : Image.t) (srcPoints : list Point) (W H : R)
    (dstImage : Image.t) (w h : N) :
  Image.data srcImage <> nil ->
  length srcPoints = 16%nat ->
  0 < W -> 0 < H ->
  (forall pt, In pt srcPoints -> 0 <= Geometry.x pt <= W /\ 0 <= Geometry.y pt <= H) ->
  exists draw,
    snd (ExtractImage glReadPixels srcImage srcPoints (1 / W) (1 / H) dstImage w h)
      = draw :: nil /\
    forall k, (k < 16)%nat ->
      exists pt, srcPoints !! k = Some pt /\
        texcoord (vertices draw) k = (Geometry.x pt * (1 / W), Geometry.y pt * (1 / H)) /\
        0 <= Geometry.x pt * (1 / W) <= 1 /\ 0 <= Geometry.y pt * (1 / H) <= 1.
Proof.
  intros Hne Hlen HW HH Hpts.
  assert (Hunit : forall pt, In pt srcPoints ->
            0 <= Geometry.x pt * (1 / W) <= 1 /\ 0 <= Geometry.y pt * (1 / H) <= 1).
  { intros pt Hin. destruct (Hpts pt Hin) as [Hx Hy].
    pose proof (unit_interval _ _ HW Hx) as Ux.
    pose proof (unit_interval _ _ HH Hy) as Uy.
    replace (Geometry.x pt * (1 / W)) with (Geometry.x pt / W) by (field; lra).
    replace (Geometry.y pt * (1 / H)) with (Geometry.y pt / H) by (field; lra).
    tauto. }
  clear Hpts.
  do 16 (destruct srcPoints as [| ? srcPoints]; [discriminate Hlen |]).
  destruct srcPoints as [| ? ?]; [clear Hlen | discriminate Hlen].
  unfold ExtractImage.
  destruct (Image.data srcImage) as [| b0 d0]; [contradiction |].
  cbn [is_empty length Nat.eqb negb snd].
  eexists. split; [reflexivity |]. cbn [vertices].
  intros k Hk.
  do 16 (destruct k as [| k];
         [eexists; split; [reflexivity |]; split; [reflexivity |];
          apply Hunit; cbn; tauto |]).
  lia.
Qed.

Lemma DrawImage_rectangle_in_ndc_witness :
  let p := Painter 1400 600 in
  let image := Image.make 1 1 (x01 :: x02 :: x03 :: nil) in
  0 < windowWidth p /\ 0 < windowHeight p /\ Image.data image <> nil /\
  exists d left,
    DrawImage p 800 0 600 600 image = d :: nil /\
    nth 0 (vertices d) None = Some left /\ in_ndc left.
Proof.
  cbv zeta.
  assert (HW : 0 < windowWidth (Painter 1400 600)) by (cbn; lra).
  assert (HH : 0 < windowHeight (Painter 1400 600)) by (cbn; lra).
  assert (Hne : Image.data (Image.make 1 1 (x01 :: x02 :: x03 :: nil)) <> nil)
    by (cbn; discriminate).
  split; [exact HW |]. split; [exact HH |]. split; [exact Hne |].
  destruct (DrawImage_rectangle_in_ndc (Painter 1400 600) 800 0 600 600 _
              HW HH Hne ltac:(lra) ltac:(lra)
              ltac:(cbn; lra) ltac:(lra) ltac:(lra) ltac:(cbn; lra))
    as (l & t & r & b & E & Hl & _).
  eexists. exists l. split; [exact E |]. split; [reflexivity | exact Hl].
Defined.

Lemma DrawLine_in_ndc_witness :
  let p := Painter 1400 600 in
  0 < windowWidth p /\ 0 < windowHeight p /\
  exists d, DrawLine p 0 0 800 600 10 10 10 = d :: nil /\ mode d = GL_LINES.
Proof.
  cbv zeta.
  assert (HW : 0 < windowWidth (Painter 1400 600)) by (cbn; lra).
  assert (HH : 0 < windowHeight (Painter 1400 600)) by (cbn; lra).
  split; [exact HW |]. split; [exact HH |].
  destruct (DrawLine_in_ndc (Painter 1400 600) 0 0 800 600 10 10 10
              HW HH ltac:(cbn; lra) ltac:(cbn; lra)
              ltac:(cbn; lra) ltac:(cbn; lra) ltac:(lia) ltac:(lia) ltac:(lia))
    as (a1 & b1 & a2 & b2 & r & g & b & E & _).
  eexists. split; [exact E | reflexivity].
Defined.


Lemma ExtractImage_destination_witness :
  let pts := repeat (mkPoint 1 1) 16 in
  let src := Image.make 1 1 (x01 :: x02 :: x03 :: nil) in
  let dst := Image.make 0 0 nil in
  Image.data src <> nil /\ length pts = 16%nat /\
  (forall (d : Draw) (b : list byte), length ((fun _ b' => b') d b) = length b) /\
  (2 * 2 * 3 < 2 ^ 32)%N /\
  well_formed (fst (ExtractImage (fun _ b' => b') src pts 1 1 dst 2 2)).
Proof.
  cbv zeta.
  assert (H1 : Image.data (Image.make 1 1 (x01 :: x02 :: x03 :: nil)) <> nil)
    by (cbn; discriminate).
  assert (H2 : length (repeat (mkPoint 1 1) 16) = 16%nat) by reflexivity.
  assert (H3 : forall (d : Draw) (b : list byte),
             length ((fun _ b' => b') d b) = length b) by reflexivity.
  assert (H4 : (2 * 2 * 3 < 2 ^ 32)%N) by reflexivity.
  split; [exact H1 |]. split; [exact H2 |]. split; [exact H3 |]. split; [exact H4 |].
  exact (proj2 (proj2 (proj2 (ExtractImage_destination (fun _ b' => b') _ _ 1 1
                                (Image.make 0 0 nil) 2 2 H1 H2 H3 H4)))).
Defined.

Lemma ExtractImage_mesh_covers_square_witness :
  let pts := repeat (mkPoint 1 1) 16 in
  let src := Image.make 1 1 (x01 :: x02 :: x03 :: nil) in
  Image.data src <> nil /\ length pts = 16%nat /\
  exists draw,
    snd (ExtractImage (fun _ b' => b') src pts 1 1 (Image.make 0 0 nil) 2 2) = draw :: nil /\
    length (triangles (indices draw)) = 18%nat.
Proof.
  cbv zeta.
  assert (H1 : Image.data (Image.make 1 1 (x01 :: x02 :: x03 :: nil)) <> nil)
    by (cbn; discriminate).
  assert (H2 : length (repeat (mkPoint 1 1) 16) = 16%nat) by reflexivity.
  split; [exact H1 |]. split; [exact H2 |].
  destruct (ExtractImage_mesh_covers_square (fun _ b' => b') _ _ 1 1
              (Image.make 0 0 nil) 2 2 H1 H2) as (draw & E & _ & _ & Ht & _).
  exists draw. split; [exact E | exact Ht].
Defined.

Lemma ExtractImage_texcoords_normalised_witness :
  let pts := repeat (mkPoint 1 1) 16 in
  let src := Image.make 1 1 (x01 :: x02 :: x03 :: nil) in
  Image.data src <> nil /\ length pts = 16%nat /\ 0 < 2 /\ 0 < 2 /\
  (forall pt, In pt pts -> 0 <= Geometry.x pt <= 2 /\ 0 <= Geometry.y pt <= 2) /\
  exists draw,
    snd (ExtractImage (fun _ b' => b') src pts (1 / 2) (1 / 2) (Image.make 0 0 nil) 2 2)
      = draw :: nil.
Proof.
  cbv zeta.
  assert (H1 : Image.data (Image.make 1 1 (x01 :: x02 :: x03 :: nil)) <> nil)
    by (cbn; discriminate).
  assert (H2 : length (repeat (mkPoint 1 1) 16) = 16%nat) by reflexivity.
  assert (H3 : 0 < 2) by lra.
  assert (H4 : forall pt, In pt (repeat (mkPoint 1 1) 16) ->
             0 <= Geometry.x pt <= 2 /\ 0 <= Geometry.y pt <= 2).
  { intros pt Hin. apply repeat_spec in Hin. subst pt. cbn. lra. }
  split; [exact H1 |]. split; [exact H2 |]. split; [exact H3 |]. split; [exact H3 |].
  split; [exact H4 |].
  destruct (ExtractImage_texcoords_normalised (fun _ b' => b') _ _ 2 2
              (Image.make 0 0 nil) 2 2 H1 H2 H3 H3 H4) as (draw & E & _).
  exists draw. exact E.
Defined.
End PainterFurther.

(** * Further properties of the line clipper *)

Section ClipperFurther.
Import Geometry Clipper.
Local Open Scope R_scope.

(** The remainder of [fmodf] for a positive divisor: it differs from the
    dividend by a whole multiple of the divisor, has the sign of the
    dividend and is smaller than the divisor. *)
Lemma fmodf_range (a b : R) :
  0 < b ->
  (0 <= a -> 0 <= fmodf a b < b) /\ (a <= 0 -> - b < fmodf a b <= 0).
Proof.
  intros Hb. unfold fmodf, Rtrunc.
  assert (Hq : a / b * b = a) by (field; lra).
  set (q := a / b) in *.
  split; intros Ha.
  - assert (Hq0 : 0 <= q).
    { apply (Rmult_le_reg_r b); [exact Hb |]. lra. }
    case_decide; [| lra].
    destruct (base_Int_part q) as [H1 H2]. nra.
  - case_decide as Hd.
    + assert (Hq00 : q = 0) by nra. assert (Ha0 : a = 0) by nra.
      rewrite Hq00, Ha0.
      assert (E : Int_part 0 = 0%Z).
      { unfold Int_part. rewrite <- (up_tech 0 0);
          [reflexivity | lra | change (0 + 1)%Z with 1%Z; lra]. }
      rewrite E. cbn. lra.
    + rewrite opp_IZR. destruct (base_Int_part (- q)) as [H1 H2]. nra.
Qed.

Lemma fmodf_small (a b : R) : 0 <= a < b -> fmodf a b = a.
Proof.
  intros [Ha Hab]. unfold fmodf, Rtrunc.
  assert (Hb : 0 < b) by lra.
  assert (Hq : a / b * b = a) by (field; lra).
  assert (Hq0 : 0 <= a / b).
  { apply (Rmult_le_reg_r b); [exact Hb |]. lra. }
  assert (Hq1 : a / b < 1).
  { apply (Rmult_lt_reg_r b); [exact Hb |]. lra. }
  case_decide; [| lra].
  assert (E : Int_part (a / b) = 0%Z).
  { unfold Int_part. rewrite <- (up_tech (a / b) 0);
      [reflexivity | lra | change (0 + 1)%Z with 1%Z; lra]. }
  rewrite E. cbn. ring.
Qed.

(** X13. The angle of a line with a negative rho, after the flip: it is
    strictly between -2 pi and 2 pi; it is in [0, 2 pi) when
    theta >= -pi; and for theta in [0, pi), the range of a Hough
    transform, it is theta + pi itself, in [pi, 2 pi). Flipping is done
    once: the flipped parameters are left as they are. *)
Theorem canonical_angle_range (line : Line) :
  rho line < 0 ->
  exists theta' rho',
    canonical line = (theta', rho') /\ 0 < rho' /\
    - (2 * PI) < theta' < 2 * PI /\
    (- PI <= theta line -> 0 <= theta' < 2 * PI) /\
    (0 <= theta line < PI -> theta' = theta line + PI /\ PI <= theta' < 2 * PI) /\
    canonical (mkLine theta' rho') = (theta', rho').
Proof.
  intros Hneg. pose proof PI_RGT_0 as Hpi.
  exists (fmodf (theta line + PI) (2 * PI)), (rho line * -1).
  split; [apply canonical_neg, Hneg |]. split; [lra |].
  destruct (fmodf_range (theta line + PI) (2 * PI) ltac:(lra)) as [Hpos Hnonpos].
  split.
  { destruct (Rle_dec 0 (theta line + PI)) as [H | H].
    - specialize (Hpos H). lra.
    - specialize (Hnonpos ltac:(lra)). lra. }
  split; [intros H; apply Hpos; lra |].
  split.
  { intros [H0 H1]. rewrite fmodf_small by lra. lra. }
  apply (canonical_nonneg (mkLine _ _)). cbn. lra.
Qed.



(** With a canonical angle whose cosine is not zero, no pass reads a
    quotient by a zero slope. *)
Lemma clip_finite (width height : R) (line : Line) :
  cos (fst (canonical line)) <> 0 -> clip width height line <> NotFinite.
Proof.
  intros Hc. unfold clip. destruct (canonical line) as [theta' rho'].
  cbn [fst] in Hc.
  case_decide as Hs; [discriminate |].
  assert (Hm : - (cos theta' / sin theta') <> 0).
  { intros E. apply Hc.
    replace (cos theta') with (- (- (cos theta' / sin theta')) * sin theta')
      by (field; exact Hs).
    rewrite E. ring. }
  repeat case_decide; try discriminate; contradiction.
Qed.

(** X17. [DrawLines] makes at most one [DrawLine] call for each line,
    and every call carries the colour it was given (for lines whose
    canonical angle has a non-zero cosine, the ones the model follows). *)
Theorem DrawLines_calls (x y width height : R) (lines : list Line) (r g b : N) :
  (forall line, In line lines -> cos (fst (canonical line)) <> 0) ->
  exists calls,
    DrawLines x y width height lines r g b = Some calls /\
    (length calls <= length lines)%nat /\
    Forall (fun c => red c = r /\ green c = g /\ blue c = b) calls.
Proof.
  induction lines as [| line lines IH]; intros Hfin.
  - exists nil. split; [reflexivity |]. split; [cbn; lia | constructor].
  - destruct IH as (calls & E & Hlen & Hcol).
    { intros l Hl. apply Hfin. right. exact Hl. }
    pose proof (clip_finite width height line (Hfin line (or_introl eq_refl))) as Hnf.
    cbn [DrawLines]. unfold draw_one.
    destruct (clip width height line) as [xp | x1 y1 x2 y2 | |].
    + cbn [mbind option_bind]. rewrite E. cbn [mbind option_bind app].
      eexists. split; [reflexivity |]. split; [cbn [length]; lia |].
      constructor; [cbn; tauto | exact Hcol].
    + cbn [mbind option_bind]. rewrite E. cbn [mbind option_bind app].
      eexists. split; [reflexivity |]. split; [cbn [length]; lia |].
      constructor; [cbn; tauto | exact Hcol].
    + cbn [mbind option_bind]. rewrite E. cbn [mbind option_bind app].
      eexists. split; [reflexivity |]. split; [cbn [length]; lia | exact Hcol].
    + contradiction.
Qed.

Lemma canonical_angle_range_witness :
  rho (mkLine 0 (-1)) < 0 /\
  exists theta' rho',
    canonical (mkLine 0 (-1)) = (theta', rho') /\ theta' = 0 + PI.
Proof.
  assert (H : rho (mkLine 0 (-1)) < 0) by (cbn; lra).
  split; [exact H |].
  destruct (canonical_angle_range (mkLine 0 (-1)) H)
    as (t & r & E & _ & _ & _ & Hh & _).
  exists t, r. split; [exact E |].
  apply Hh. cbn. pose proof PI_RGT_0. lra.
Defined.




Lemma DrawLines_calls_witness :
  (forall line, In line (mkLine 0 5 :: nil) -> cos (fst (canonical line)) <> 0) /\
  exists calls, DrawLines 0 0 10 10 (mkLine 0 5 :: nil) 10 10 10 = Some calls /\
    (length calls <= 1)%nat.
Proof.
  assert (H : forall line, In line (mkLine 0 5 :: nil) ->
                cos (fst (canonical line)) <> 0).
  { intros line [<- | []]. rewrite (canonical_nonneg (mkLine 0 5)) by (cbn; lra).
    cbn [fst theta]. rewrite cos_0. lra. }
  split; [exact H |].
  destruct (DrawLines_calls 0 0 10 10 _ 10 10 10 H) as (calls & E & Hlen & _).
  exists calls. split; [exact E | exact Hlen].
Defined.
End ClipperFurther.

(** * Further properties of the Hough preview *)

Section HoughFurther.
Import Image Hough.
Local Open Scope N_scope.

(** X18. An accumulator without cells (width * height = 0 in
    [unsigned int] arithmetic) passes both loops untouched: the copy is
    the frame itself, nothing is read and nothing is divided. With an
    empty buffer [DrawHoughTransform] then draws nothing. *)
Theorem rescale_without_cells (frame : Image.t) :
  cell_count frame = 0 ->
  rescale frame = Some frame /\
  (Image.data frame = nil ->
   forall painter windowWidth windowHeight scale,
     DrawHoughTransform painter windowWidth windowHeight frame scale = Some nil).
Proof.
  intros Hc.
  assert (Hr : rescale frame = Some frame).
  { unfold rescale, maximum. rewrite Hc. cbn. destruct frame. reflexivity. }
  split; [exact Hr |].
  intros Hd painter W H scale. unfold DrawHoughTransform. rewrite Hr.
  cbn [mbind option_bind]. unfold Painter.DrawImage. rewrite Hd. reflexivity.
Qed.

Lemma read_u16_in_bounds (d : list byte) (i v : N) :
  read_u16 d i = Some v -> (N.to_nat i + 1 < length d)%nat.
Proof.
  unfold read_u16. intros H.
  destruct (d !! N.to_nat i) as [lo |] eqn:E1; [| discriminate].
  destruct (d !! S (N.to_nat i)) as [hi |] eqn:E2; [| discriminate].
  apply lookup_lt_Some in E2. lia.
Qed.

Lemma find_maximum_short (frame : Image.t) (n : nat) :
  width frame * height frame * 3 < 2 ^ 32 ->
  N.of_nat (length (data frame)) + 2 <= width frame * height frame * 3 ->
  forall x acc,
    x + N.of_nat n = width frame * height frame -> (0 < n)%nat ->
    find_maximum frame n x acc = None.
Proof.
  intros Hsz Hshort. change (2 ^ 32) with 4294967296 in Hsz.
  induction n as [| n IH]; intros x acc Hx Hn; [lia |].
  cbn [find_maximum].
  rewrite (u32_small (x * 3)) by (change (2 ^ 32) with 4294967296; lia).
  destruct (read_u16 (data frame) (x * 3)) as [v |] eqn:E; [| reflexivity].
  cbn [mbind option_bind].
  destruct n as [| n'].
  - apply read_u16_in_bounds in E. lia.
  - apply IH; lia.
Qed.

(** X19. A buffer at least two bytes short of 3 bytes per cell is read
    out of bounds by the first loop (the last cell is read as an
    [unsigned short]): [DrawHoughTransform] has no defined result. This
    includes the empty buffer of an image whose width and height are not
    zero; the function has no test for it. *)
Theorem short_buffer_undefined (frame : Image.t) :
  width frame * height frame * 3 < 2 ^ 32 ->
  N.of_nat (length (data frame)) + 2 <= width frame * height frame * 3 ->
  maximum frame = None /\ rescale frame = None /\
  forall painter windowWidth windowHeight scale,
    DrawHoughTransform painter windowWidth windowHeight frame scale = None.
Proof.
  intros Hsz Hshort.
  assert (Hc : cell_count frame = width frame * height frame).
  { unfold cell_count. apply u32_small.
    change (2 ^ 32) with 4294967296 in *. lia. }
  assert (Hm : maximum frame = None).
  { unfold maximum. rewrite Hc.
    apply (find_maximum_short frame _ Hsz Hshort); lia. }
  assert (Hr : rescale frame = None) by (unfold rescale; rewrite Hm; reflexivity).
  split; [exact Hm |]. split; [exact Hr |].
  intros painter W H scale. unfold DrawHoughTransform. rewrite Hr. reflexivity.
Qed.

(** X20. For a well-formed accumulator with a non-zero count, in a
    painter whose window has non-zero sides, [DrawHoughTransform] issues
    one quad textured with the rescaled copy. Its right and bottom edges
    are the images of the pixel columns and rows [windowWidth] and
    [windowHeight] it was given, and its extent is the size of the
    accumulator times the scale. *)
Theorem DrawHoughTransform_anchored
    (painter : Painter.t) (windowWidth windowHeight : R) (frame : Image.t) (scale : R) :
  well_formed frame ->
  (exists x, x < cell_count frame /\ cell frame x <> 0) ->
  Painter.windowWidth painter <> 0%R -> Painter.windowHeight painter <> 0%R ->
  exists out left top right bottom,
    rescale frame = Some out /\
    DrawHoughTransform painter windowWidth windowHeight frame scale =
    Some (Painter.mkDraw Painter.GL_TRIANGLES 6
      (Some left :: Some top :: Some 0%R :: Some 0%R :: Some 0%R ::
       Some right :: Some top :: Some 0%R :: Some 1%R :: Some 0%R ::
       Some right :: Some bottom :: Some 0%R :: Some 1%R :: Some 1%R ::
       Some left :: Some bottom :: Some 0%R :: Some 0%R :: Some 1%R :: nil)
      (0 :: 1 :: 2 :: 2 :: 3 :: 0 :: nil)%nat (Some out) Painter.Screen :: nil) /\
    (right = windowWidth / Painter.windowWidth painter * 2 - 1)%R /\
    (bottom = 1 - windowHeight / Painter.windowHeight painter * 2)%R /\
    (right - left =
       2 * (IZR (Z.of_N (width frame)) * scale) / Painter.windowWidth painter)%R /\
    (top - bottom =
       2 * (IZR (Z.of_N (height frame)) * scale) / Painter.windowHeight painter)%R.
Proof.
  intros Hwf Hex HW0 HH0.
  destruct (maximum_positive_spec frame Hwf Hex) as (M & HM & Hpos & Hle & _).
  destruct (rescale_spec frame M Hwf HM Hpos Hle) as (out & Hout & _ & _ & Hlen & _).
  assert (Hne : data out <> nil).
  { destruct Hex as (x & Hx & _). rewrite (cell_count_exact frame Hwf) in Hx.
    destruct Hwf as [Hl _]. intros E. rewrite E in Hlen. cbn in Hlen. lia. }
  set (w := (IZR (Z.of_N (width frame)) * scale)%R).
  set (h := (IZR (Z.of_N (height frame)) * scale)%R).
  exists out,
    ((windowWidth - w) / Painter.windowWidth painter * 2 - 1)%R,
    (1 - (windowHeight - h) / Painter.windowHeight painter * 2)%R,
    (((windowWidth - w) / Painter.windowWidth painter
      + w / Painter.windowWidth painter) * 2 - 1)%R,
    (1 - ((windowHeight - h) / Painter.windowHeight painter
          + h / Painter.windowHeight painter) * 2)%R.
  split; [exact Hout |]. split.
  { unfold DrawHoughTransform. rewrite Hout. cbn [mbind option_bind]. cbv zeta.
    fold w h. unfold Painter.DrawImage.
    destruct (data out) as [| b d]; [contradiction |].
    cbn [Painter.is_empty]. cbv zeta.
    rewrite !(F_div_lit _ _ HW0), !(F_div_lit _ _ HH0). reflexivity. }
  repeat split; field; assumption.
Qed.

Lemma rescale_without_cells_witness :
  cell_count (Image.make 0 0 nil) = 0 /\ rescale (Image.make 0 0 nil) = Some (Image.make 0 0 nil).
Proof.
  assert (H : cell_count (Image.make 0 0 nil) = 0) by reflexivity.
  split; [exact H |]. exact (proj1 (rescale_without_cells _ H)).
Defined.

Lemma short_buffer_undefined_witness :
  let frame := Image.make 2 1 nil in
  width frame * height frame * 3 < 2 ^ 32 /\
  N.of_nat (length (data frame)) + 2 <= width frame * height frame * 3 /\
  rescale frame = None.
Proof.
  cbv zeta.
  assert (H1 : width (Image.make 2 1 nil) * height (Image.make 2 1 nil) * 3 < 2 ^ 32)
    by reflexivity.
  assert (H2 : N.of_nat (length (data (Image.make 2 1 nil))) + 2
               <= width (Image.make 2 1 nil) * height (Image.make 2 1 nil) * 3)
    by (cbn; lia).
  split; [exact H1 |]. split; [exact H2 |].
  exact (proj1 (proj2 (short_buffer_undefined _ H1 H2))).
Defined.

Lemma DrawHoughTransform_anchored_witness :
  let frame := Image.make 1 1 (x01 :: x00 :: x00 :: nil) in
  let painter := Painter.Painter 1400 600 in
  well_formed frame /\
  (exists x, x < cell_count frame /\ cell frame x <> 0) /\
  Painter.windowWidth painter <> 0%R /\ Painter.windowHeight painter <> 0%R /\
  exists out, rescale frame = Some out.
Proof.
  cbv zeta.
  assert (Hwf : well_formed (Image.make 1 1 (x01 :: x00 :: x00 :: nil)))
    by (split; reflexivity).
  assert (Hex : exists x, x < cell_count (Image.make 1 1 (x01 :: x00 :: x00 :: nil)) /\
                  cell (Image.make 1 1 (x01 :: x00 :: x00 :: nil)) x <> 0).
  { exists 0. split; [reflexivity |]. vm_compute. discriminate. }
  assert (HW : Painter.windowWidth (Painter.Painter 1400 600) <> 0%R) by (cbn; lra).
  assert (HH : Painter.windowHeight (Painter.Painter 1400 600) <> 0%R) by (cbn; lra).
  split; [exact Hwf |]. split; [exact Hex |]. split; [exact HW |]. split; [exact HH |].
  destruct (DrawHoughTransform_anchored (Painter.Painter 1400 600) 800 600 _ 0.75
              Hwf Hex HW HH) as (out & _ & _ & _ & _ & E & _).
  exists out. exact E.
Defined.
End HoughFurther.

(** * The layout of a frame *)

Section LayoutProperties.
Import Painter MainLoop.
Local Open Scope R_scope.

(** The quad of [DrawImage] in a window with non-zero sides. *)
Lemma DrawImage_quad (p : t) (x y width height : R) (image : Image.t) :
  windowWidth p <> 0 -> windowHeight p <> 0 -> Image.data image <> nil ->
  DrawImage p x y width height image =
  mkDraw GL_TRIANGLES 6
    (Some (x / windowWidth p * 2 - 1) :: Some (1 - y / windowHeight p * 2) ::
       Some 0 :: Some 0 :: Some 0 ::
     Some ((x / windowWidth p + width / windowWidth p) * 2 - 1) ::
       Some (1 - y / windowHeight p * 2) :: Some 0 :: Some 1 :: Some 0 ::
     Some ((x / windowWidth p + width / windowWidth p) * 2 - 1) ::
       Some (1 - (y / windowHeight p + height / windowHeight p) * 2) ::
       Some 0 :: Some 1 :: Some 1 ::
     Some (x / windowWidth p * 2 - 1) ::
       Some (1 - (y / windowHeight p + height / windowHeight p) * 2) ::
       Some 0 :: Some 0 :: Some 1 :: nil)
    (0 :: 1 :: 2 :: 2 :: 3 :: 0 :: nil)%nat (Some image) Screen :: nil.
Proof.
  intros HW0 HH0 Hne. unfold DrawImage.
  destruct (Image.data image) as [| b d]; [contradiction |].
  cbn [is_empty]. cbv zeta.
  rewrite !(F_div_lit _ _ HW0), !(F_div_lit _ _ HH0). reflexivity.
Qed.

(** X21. In the window the program creates, 1400 by 600, every camera
    frame with a non-zero side is drawn beside the puzzle panel and not
    over it: the quad of the merged frame and the quad of the puzzle
    image both lie in the range [-1, 1], the first ends at or before the
    column of pixel 800 where the second begins, and the second fills
    the window to its right, top and bottom edges. *)
Theorem frame_and_panel_do_not_overlap (frame mergedFrame puzzleFrame : Image.t) :
  (0 < Image.width frame \/ 0 < Image.height frame)%N ->
  Image.data mergedFrame <> nil -> Image.data puzzleFrame <> nil ->
  exists l1 t1 r1 b1 l2 t2 r2 b2,
    draw_images 1400 600 frame mergedFrame puzzleFrame =
    Some (mkDraw GL_TRIANGLES 6
            (Some l1 :: Some t1 :: Some 0 :: Some 0 :: Some 0 ::
             Some r1 :: Some t1 :: Some 0 :: Some 1 :: Some 0 ::
             Some r1 :: Some b1 :: Some 0 :: Some 1 :: Some 1 ::
             Some l1 :: Some b1 :: Some 0 :: Some 0 :: Some 1 :: nil)
            (0 :: 1 :: 2 :: 2 :: 3 :: 0 :: nil)%nat (Some mergedFrame) Screen ::
          mkDraw GL_TRIANGLES 6
            (Some l2 :: Some t2 :: Some 0 :: Some 0 :: Some 0 ::
             Some r2 :: Some t2 :: Some 0 :: Some 1 :: Some 0 ::
             Some r2 :: Some b2 :: Some 0 :: Some 1 :: Some 1 ::
             Some l2 :: Some b2 :: Some 0 :: Some 0 :: Some 1 :: nil)
            (0 :: 1 :: 2 :: 2 :: 3 :: 0 :: nil)%nat (Some puzzleFrame) Screen :: nil) /\
    -1 <= l1 /\ l1 <= r1 /\ r1 <= l2 /\ l2 <= r2 /\ r2 = 1 /\
    t1 <= 1 /\ b1 <= t1 /\ -1 <= b1 /\ t2 = 1 /\ b2 = -1.
Proof.
  intros Himg Hm Hp.
  destruct (FitImage_spec 800 600 frame
              ltac:(change (2 ^ 20)%N with 1048576%N; lia)
              ltac:(change (2 ^ 20)%N with 1048576%N; lia) Himg)
    as (x & y & w & h & E & [Hw Hh] & Hx & Hy & _).
  assert (HW0 : windowWidth (Painter 1400 600) <> 0) by (cbn; lra).
  assert (HH0 : windowHeight (Painter 1400 600) <> 0) by (cbn; lra).
  do 8 eexists. split.
  { unfold draw_images. cbv zeta.
    change (u32 (1400 + (2 ^ 32 - PUZZLE_IMAGE_WIDTH))) with 800%N.
    rewrite E. cbn [mbind option_bind].
    rewrite (DrawImage_quad _ _ _ _ _ mergedFrame HW0 HH0 Hm).
    rewrite (DrawImage_quad _ _ _ _ _ puzzleFrame HW0 HH0 Hp).
    reflexivity. }
  cbn [Painter windowWidth windowHeight Z.of_N].
  change (IZR (Z.of_N PUZZLE_IMAGE_WIDTH)) with 600.
  change (IZR (Z.of_N PUZZLE_IMAGE_HEIGHT)) with 600.
  assert (Ix : 0 <= IZR (Z.of_N x)) by (apply IZR_le; lia).
  assert (Iy : 0 <= IZR (Z.of_N y)) by (apply IZR_le; lia).
  assert (Iw : 0 <= IZR (Z.of_N w)) by (apply IZR_le; lia).
  assert (Ih : 0 <= IZR (Z.of_N h)) by (apply IZR_le; lia).
  assert (Ixw : IZR (Z.of_N x) + IZR (Z.of_N w) <= 800).
  { rewrite <- plus_IZR. apply IZR_le. lia. }
  assert (Iyh : IZR (Z.of_N y) + IZR (Z.of_N h) <= 600).
  { rewrite <- plus_IZR. apply IZR_le. lia. }
  repeat split; lra.
Qed.

Lemma frame_and_panel_do_not_overlap_witness :
  let frame := Image.make 640 480 nil in
  let img := Image.make 1 1 (x01 :: x02 :: x03 :: nil) in
  (0 < Image.width frame \/ 0 < Image.height frame)%N /\
  Image.data img <> nil /\
  exists draws, draw_images 1400 600 frame img img = Some draws /\ length draws = 2%nat.
Proof.
  cbv zeta.
  assert (H1 : (0 < Image.width (Image.make 640 480 nil) \/
               0 < Image.height (Image.make 640 480 nil))%N) by (left; reflexivity).
  assert (H2 : Image.data (Image.make 1 1 (x01 :: x02 :: x03 :: nil)) <> nil)
    by (cbn; discriminate).
  split; [exact H1 |]. split; [exact H2 |].
  destruct (frame_and_panel_do_not_overlap _ _ _ H1 H2 H2)
    as (l1 & t1 & r1 & b1 & l2 & t2 & r2 & b2 & E & _).
  eexists. split; [exact E | reflexivity].
Defined.
End LayoutProperties.
